(** * Binomial lattice pricing and the explicit Black-Scholes stepper

    A shallow embedding of the pricing core of the repository:
    [find_dt_u_d], [produce_tree], [payoff], [find_euro_option_value] and
    [find_amer_option_value] of the binomial-method script, and
    [find_dVdS], [find_d2VdS2], [find_dVdt] of [BlackScholes.py].

    Python floats are read as real numbers: every statement below is about
    exact arithmetic, rounding is not modelled.  Python exceptions are
    explicit ([Raise]); the value [None] that a function returns by falling
    off its end is a value ([PyNone]), not an exception. *)

From Stdlib Require Import Reals Lra Lia List String ZArith Bool.
Import ListNotations.

Open Scope R_scope.

(** ** The fragment of the Python runtime the scripts rely on *)

Module Py.

Inductive exn : Set :=
| ZeroDivisionError
| TypeError
| IndexError
| UnboundLocalError.

Inductive result (A : Type) : Type :=
| Ok (a : A)
| Raise (e : exn).

Arguments Ok {A} a.
Arguments Raise {A} e.

Definition bind {A B : Type} (c : result A) (k : A -> result B) : result B :=
  match c with
  | Ok a => k a
  | Raise e => Raise e
  end.

(** What an expression of the scripts can evaluate to: a number, or [None]. *)
Inductive value : Type :=
| Num (x : R)
| PyNone.

(** [l[i]]: a negative subscript counts from the end, anything outside
    [-len(l) .. len(l)-1] raises [IndexError]. *)
Definition getitem {A : Type} (l : list A) (i : Z) : result A :=
  let len := Z.of_nat (List.length l) in
  let k := if (i <? 0)%Z then (len + i)%Z else i in
  if ((0 <=? k) && (k <? len))%Z
  then match nth_error l (Z.to_nat k) with
       | Some a => Ok a
       | None => Raise IndexError
       end
  else Raise IndexError.

(** [a + b] on two evaluated operands; [None + x] raises [TypeError]. *)
Definition py_add (a b : value) : result R :=
  match a, b with
  | Num x, Num y => Ok (x + y)
  | _, _ => Raise TypeError
  end.

(** [a > b] with a float on the right. *)
Definition py_gt (a : value) (b : R) : result bool :=
  match a with
  | Num x => Ok (if Rgt_dec x b then true else false)
  | PyNone => Raise TypeError
  end.

(** [max(a, b)]: the builtin keeps its first argument unless the second is
    strictly larger. *)
Definition py_max (a : R) (b : value) : result R :=
  match b with
  | Num y => Ok (if Rgt_dec y a then y else a)
  | PyNone => Raise TypeError
  end.

(** [a / b] on Python numbers. *)
Definition py_div (a b : R) : result R :=
  if Req_dec_T b 0 then Raise ZeroDivisionError else Ok (a / b).

(** Reading a local that may not have been assigned yet. *)
Definition read_local {A : Type} (x : option A) : result A :=
  match x with
  | Some a => Ok a
  | None => Raise UnboundLocalError
  end.

(** [for x in l: s = body(x, s)], stopping at the first exception. *)
Fixpoint for_each {A St : Type} (body : A -> St -> result St)
         (l : list A) (s : St) : result St :=
  match l with
  | [] => Ok s
  | x :: l' => bind (body x s) (for_each body l')
  end.

(** [range(n)] and [range(a, b)]. *)
Definition range (n : nat) : list nat := seq 0 n.
Definition range2 (a b : nat) : list nat := seq a (b - a).

End Py.

Import Py.

Declare Scope py_scope.
Delimit Scope py_scope with py.
Notation "x <- c ;; k" := (bind c (fun x => k))
  (at level 61, c at next level, right associativity) : py_scope.
Notation "' pat <- c ;; k" := (bind c (fun x => match x with pat => k end))
  (at level 61, pat pattern, c at next level, right associativity) : py_scope.
Open Scope py_scope.

(** ** The binomial-method script *)

Module Binomial.

(** [np.sqrt]: for a negative argument numpy yields [nan] (with a warning);
    the argument [A] of [find_dt_u_d] is non-negative whenever [0 <= T]
    (lemma [A_nonneg] below), which every statement about [u] and [d]
    assumes. *)
Definition np_sqrt (x : R) : R := sqrt x.

(** [steps] is a Python [int]; it is a [nat] here, so negative step counts
    are outside the model.  [T/steps] raises for [steps = 0]. *)
Definition find_dt_u_d (r sigma T : R) (steps : nat) : result (R * R * R) :=
  dt <- py_div T (INR steps) ;;
  let A := exp ((sigma ^ 2) * dt) - 1 in
  let B := exp (r * dt) in
  let u := B * (1 + np_sqrt A) in
  let d := B * (1 - np_sqrt A) in
  Ok (dt, u, d).

Definition produce_tree (S_0 r sigma T : R) (steps : nat)
  : result (list (list R)) :=
  ' (dt, u, d) <- find_dt_u_d r sigma T steps ;;
  for_each
    (fun i tree =>
       row <- for_each
                (fun j row =>
                   let value := S_0 * (u ^ j) * (d ^ (i - j)) in
                   Ok (row ++ [value]))
                (range (i + 1)) [] ;;
       Ok (tree ++ [row]))
    (range (steps + 1)) [].

Definition payoff (S E : R) (option_type : string) : value :=
  if (option_type =? "call")%string then
    if Rgt_dec (S - E) 0 then Num (S - E) else Num 0
  else if (option_type =? "put")%string then
    if Rgt_dec (E - S) 0 then Num (E - S) else Num 0
  else if (option_type =? "cash_or_nothing_call")%string then
    if Rgt_dec (S - E) 0 then Num 10 else Num 0
  else if (option_type =? "cash_or_nothing_put")%string then
    if Rgt_dec (E - S) 0 then Num 10 else Num 0
  else PyNone.

(** The body of the loop over [i] in [find_euro_option_value]: one level of
    discounted expectation. *)
Definition euro_step (discount : R) (payoff_row : list value)
  : result (list value) :=
  for_each
    (fun j new_row =>
       a <- getitem payoff_row (Z.of_nat j) ;;
       b <- getitem payoff_row (Z.of_nat j + 1) ;;
       s <- py_add a b ;;
       let new_value := discount * 0.5 * s in
       Ok (new_row ++ [Num new_value]))
    (range (List.length payoff_row - 1)) [].

Definition find_euro_option_value (S_0 r sigma T : R) (steps : nat)
           (E : R) (option_type : string) : result value :=
  ' (dt, u, d) <- find_dt_u_d r sigma T steps ;;
  tree <- produce_tree S_0 r sigma T steps ;;
  let tree_len := Z.of_nat (List.length tree) in
  final_row <- getitem tree (tree_len - 1) ;;
  payoff_row <- for_each
                  (fun value payoff_row =>
                     let pay_value := payoff value E option_type in
                     Ok (payoff_row ++ [pay_value]))
                  final_row [] ;;
  let discount := exp (- r * dt) in
  payoff_row <- for_each (fun _ payoff_row => euro_step discount payoff_row)
                         (range steps) payoff_row ;;
  getitem payoff_row 0.

(** The body of the loop over [i] in [find_amer_option_value].  The local
    [exercise] is overwritten at every node, so it is threaded through;
    it is unbound until the first node has been visited. *)
Definition amer_step (discount E : R) (option_type : string)
           (tree : list (list R)) (tree_len : Z) (i : nat)
           (st : list value * option bool)
  : result (list value * option bool) :=
  let '(payoff_row, exercise) := st in
  tree_row <- getitem tree ((tree_len - 2) - Z.of_nat i) ;;
  ' (new_row, exercise) <-
    for_each
      (fun j (acc : list value * option bool) =>
         let '(new_row, _) := acc in
         a <- getitem payoff_row (Z.of_nat j) ;;
         b <- getitem payoff_row (Z.of_nat j + 1) ;;
         s <- py_add a b ;;
         let hold_value := discount * 0.5 * s in
         tree_value <- getitem tree_row (Z.of_nat j) ;;
         let exercise_value := payoff tree_value E option_type in
         exercise <- py_gt exercise_value hold_value ;;
         new_value <- py_max hold_value exercise_value ;;
         Ok (new_row ++ [Num new_value], Some exercise))
      (range (List.length payoff_row - 1)) ([], exercise) ;;
  Ok (new_row, exercise).

Definition find_amer_option_value (S_0 r sigma T : R) (steps : nat)
           (E : R) (option_type : string) : result (value * bool) :=
  ' (dt, u, d) <- find_dt_u_d r sigma T steps ;;
  tree <- produce_tree S_0 r sigma T steps ;;
  let tree_len := Z.of_nat (List.length tree) in
  final_row <- getitem tree (tree_len - 1) ;;
  payoff_row <- for_each
                  (fun value payoff_row =>
                     let pay_value := payoff value E option_type in
                     Ok (payoff_row ++ [pay_value]))
                  final_row [] ;;
  let discount := exp (- r * dt) in
  ' (payoff_row, exercise) <-
    for_each (amer_step discount E option_type tree tree_len)
             (range steps) (payoff_row, None) ;;
  amer_option_value <- getitem payoff_row 0 ;;
  exercise <- read_local exercise ;;
  Ok (amer_option_value, exercise).

End Binomial.

(** ** The finite-difference stepper of [BlackScholes.py] *)

Module BlackScholes.

Definition find_dVdS (V_list S_list : list R) : result (list R) :=
  dVdS_list <-
    for_each
      (fun i dVdS_list =>
         V_1 <- getitem V_list (Z.of_nat i) ;;
         V_2 <- getitem V_list (Z.of_nat i + 1) ;;
         S_1 <- getitem S_list (Z.of_nat i) ;;
         S_2 <- getitem S_list (Z.of_nat i + 1) ;;
         dVdS <- py_div (V_2 - V_1) (S_2 - S_1) ;;
         Ok (dVdS_list ++ [dVdS]))
      (range (List.length V_list - 1)) [] ;;
  let list_len := Z.of_nat (List.length dVdS_list) in
  x1 <- getitem dVdS_list (list_len - 1) ;;
  x2 <- getitem dVdS_list (list_len - 2) ;;
  let deltadVdS := x1 - x2 in
  s1 <- getitem S_list (list_len - 2) ;;
  s2 <- getitem S_list (list_len - 3) ;;
  let deltaS := s1 - s2 in
  gradient <- py_div deltadVdS deltaS ;;
  x1 <- getitem dVdS_list (list_len - 1) ;;
  sl1 <- getitem S_list (-1) ;;
  sl2 <- getitem S_list (-2) ;;
  let final_value := x1 + (sl1 - sl2) * gradient in
  Ok (dVdS_list ++ [final_value]).

Definition find_d2VdS2 (V_list S_list : list R) : result (list R) :=
  d2VdS2_list <-
    for_each
      (fun i d2VdS2_list =>
         V_minus <- getitem V_list (Z.of_nat i - 1) ;;
         V <- getitem V_list (Z.of_nat i) ;;
         V_plus <- getitem V_list (Z.of_nat i + 1) ;;
         S_1 <- getitem S_list (Z.of_nat i) ;;
         S_2 <- getitem S_list (Z.of_nat i + 1) ;;
         d2VdS2 <- py_div (V_minus - (2 * V) + V_plus) (S_2 - S_1) ;;
         Ok (d2VdS2_list ++ [d2VdS2]))
      (range2 1 (List.length V_list - 1)) [] ;;
  let list_len := Z.of_nat (List.length d2VdS2_list) in
  (* final value *)
  x1 <- getitem d2VdS2_list (list_len - 1) ;;
  x2 <- getitem d2VdS2_list (list_len - 2) ;;
  let deltad2VdS2 := x1 - x2 in
  s1 <- getitem S_list (list_len - 2) ;;
  s2 <- getitem S_list (list_len - 3) ;;
  let deltaS := s1 - s2 in
  gradient <- py_div deltad2VdS2 deltaS ;;
  x1 <- getitem d2VdS2_list (list_len - 1) ;;
  sl1 <- getitem S_list (-1) ;;
  sl2 <- getitem S_list (-2) ;;
  let final_value := x1 + (sl1 - sl2) * gradient in
  let d2VdS2_list := d2VdS2_list ++ [final_value] in
  (* initial value *)
  y1 <- getitem d2VdS2_list 1 ;;
  y0 <- getitem d2VdS2_list 0 ;;
  let deltad2VdS2 := y1 - y0 in
  t1 <- getitem S_list 1 ;;
  t0 <- getitem S_list 0 ;;
  let deltaS := t1 - t0 in
  gradient <- py_div deltad2VdS2 deltaS ;;
  y0 <- getitem d2VdS2_list 0 ;;
  let initial_value := y0 - (t1 - t0) * gradient in
  Ok (initial_value :: d2VdS2_list).

Definition find_dVdt (V_list S_list : list R) (r sigma : R)
  : result (list R) :=
  dVdS_list <- find_dVdS V_list S_list ;;
  d2VdS2_list <- find_d2VdS2 V_list S_list ;;
  for_each
    (fun i dVdt_list =>
       V <- getitem V_list (Z.of_nat i) ;;
       S <- getitem S_list (Z.of_nat i) ;;
       dVdS <- getitem dVdS_list (Z.of_nat i) ;;
       d2VdS2 <- getitem d2VdS2_list (Z.of_nat i) ;;
       let dVdt := 0 in
       let dVdt := dVdt + r * V in
       let dVdt := dVdt - r * S * dVdS in
       let dVdt := dVdt - 0.5 * sigma * sigma * S * d2VdS2 in
       Ok (dVdt_list ++ [dVdt]))
    (range (List.length V_list)) [].

(** The example contract of the script: an option that pays out only if
    the stock expires in a window. *)
Definition payoff (S : R) : R :=
  let E := 110 in
  let B := 120 in
  if Rgt_dec S B then 0
  else if Rgt_dec S E then 10
  else 0.

(** [payoff] is passed in as a function. *)
Definition find_V_expiry (S_list : list R) (payoff : R -> R) : list R :=
  fold_left (fun V_expiry S => V_expiry ++ [payoff S]) S_list [].

Definition update_V (V_list dVdt_list : list R) (dt : R) : result (list R) :=
  for_each
    (fun i new_V_list =>
       V <- getitem V_list (Z.of_nat i) ;;
       dVdt <- getitem dVdt_list (Z.of_nat i) ;;
       let dV := dVdt * dt in
       let new_V := V - dV in
       Ok (new_V_list ++ [new_V]))
    (range (List.length V_list)) [].

(** The loop state is [(V_data, t_list, V_now, t_now)]. *)
Definition find_option_value (S_list : list R) (r sigma : R) (steps : nat)
           (dt : R) : result (list (list R) * list R) :=
  let V_expiry := find_V_expiry S_list payoff in
  ' (V_data, t_list, _, _) <-
    for_each
      (fun (_ : nat) (st : list (list R) * list R * list R * R) =>
         let '(V_data, t_list, V_now, t_now) := st in
         dVdt_list <- find_dVdt V_now S_list r sigma ;;
         V_new <- update_V V_now dVdt_list dt ;;
         let t_new := t_now + dt in
         Ok (V_data ++ [V_new], t_list ++ [t_new], V_new, t_new))
      (range steps) ([V_expiry], [0], V_expiry, 0) ;;
  Ok (V_data, t_list).

(** The closed forms.  [norm.cdf] of scipy is the parameter [norm_cdf];
    numpy's [log] and the two divisions are the real ones, which the
    statements use only for [S > 0], [E > 0], [sigma > 0] and [t > 0]. *)
Definition european_call (norm_cdf : R -> R) (S t r sigma E : R) : R :=
  let d_1 := (ln (S / E) + (r + sigma ^ 2 / 2) * t) / (sigma * sqrt t) in
  let d_2 := d_1 - sigma * sqrt t in
  let C_1 := norm_cdf d_1 * S in
  let C_2 := norm_cdf d_2 * E * exp (- r * t) in
  let C := C_1 - C_2 in
  C.

Definition european_put (norm_cdf : R -> R) (S t r sigma E : R) : R :=
  let d_1 := (ln (S / E) + (r + sigma ^ 2 / 2) * t) / (sigma * sqrt t) in
  let d_2 := d_1 - sigma * sqrt t in
  let P_1 := norm_cdf (- d_1) * S in
  let P_2 := norm_cdf (- d_2) * E * exp (- r * t) in
  let P := P_2 - P_1 in
  P.

End BlackScholes.

(** ** The lattice in the words of the specification *)

Module Lattice.

Import Binomial.

(** The closed enumeration of contract kinds. *)
Definition recognized (option_type : string) : bool :=
  ((option_type =? "call") || (option_type =? "put")
   || (option_type =? "cash_or_nothing_call")
   || (option_type =? "cash_or_nothing_put"))%string.

(** The number [payoff] returns, for a kind it knows. *)
Definition intrinsic (S E : R) (option_type : string) : R :=
  match payoff S E option_type with
  | Num x => x
  | PyNone => 0
  end.

Definition lattice_dt (T : R) (N : nat) : R := T / INR N.

Definition lattice_A (sigma T : R) (N : nat) : R :=
  exp (sigma ^ 2 * lattice_dt T N) - 1.

Definition lattice_B (r T : R) (N : nat) : R := exp (r * lattice_dt T N).

Definition lattice_u (r sigma T : R) (N : nat) : R :=
  lattice_B r T N * (1 + sqrt (lattice_A sigma T N)).

Definition lattice_d (r sigma T : R) (N : nat) : R :=
  lattice_B r T N * (1 - sqrt (lattice_A sigma T N)).

(** Price at node [(i, j)]: [j] up moves out of [i]. *)
Definition price (S0 u d : R) (i j : nat) : R := S0 * u ^ j * d ^ (i - j).

(** The whole tree, level by level. *)
Definition tree_of (S0 u d : R) (N : nat) : list (list R) :=
  map (fun i => map (price S0 u d i) (seq 0 (i + 1))) (seq 0 (N + 1)).

(** Backward induction without exercise, [k] levels below the leaves:
    the leaves are [leaf], every earlier node is the discounted mean of
    its two successors. *)
Fixpoint hold_node (discount : R) (leaf : nat -> R) (k j : nat) : R :=
  match k with
  | O => leaf j
  | S k' => discount * 0.5
            * (hold_node discount leaf k' j + hold_node discount leaf k' (S j))
  end.

(** Backward induction with exercise: [exercise k' j] is the exercise value
    of node [j] on the level that has [k'] levels between it and the
    leaves. *)
Fixpoint stop_node (discount : R) (leaf : nat -> R)
         (exercise : nat -> nat -> R) (k j : nat) : R :=
  match k with
  | O => leaf j
  | S k' => Rmax (discount * 0.5
                  * (stop_node discount leaf exercise k' j
                     + stop_node discount leaf exercise k' (S j)))
                 (exercise k' j)
  end.

(** The value of the local [exercise] once [k] passes of the American loop
    are done: unbound before the first pass, afterwards the comparison made
    at the last node visited, the one with index [N - k] on its level. *)
Definition stop_flag (discount : R) (leaf : nat -> R)
           (exercise : nat -> nat -> R) (N k : nat) : option bool :=
  match k with
  | O => None
  | S k' =>
      let j := (N - S k')%nat in
      let hold := discount * 0.5
                  * (stop_node discount leaf exercise k' j
                     + stop_node discount leaf exercise k' (S j)) in
      Some (if Rgt_dec (exercise k' j) hold then true else false)
  end.

Section Levels.

Variables (S0 r sigma T : R) (N : nat) (E : R) (kind : string).

Let dt := lattice_dt T N.
Let u := lattice_u r sigma T N.
Let d := lattice_d r sigma T N.
Let discount := exp (- r * dt).

(** European value lattice, by level [i] and up-move count [j]. *)
Definition euro_V (i j : nat) : R :=
  hold_node discount (fun j => intrinsic (price S0 u d N j) E kind) (N - i) j.

(** American value lattice. *)
Definition amer_V (i j : nat) : R :=
  stop_node discount (fun j => intrinsic (price S0 u d N j) E kind)
            (fun k' j => intrinsic (price S0 u d (N - S k') j) E kind)
            (N - i) j.

(** Value of holding at node [(i, j)] of the American lattice. *)
Definition amer_hold (i j : nat) : R :=
  discount * 0.5 * (amer_V (S i) j + amer_V (S i) (S j)).

(** Whether exercising beats holding at node [(i, j)]. *)
Definition amer_exercise (i j : nat) : bool :=
  if Rgt_dec (intrinsic (price S0 u d i j) E kind) (amer_hold i j)
  then true else false.

End Levels.

(** The rows the two loops hold after [k] iterations: the code of
    [find_euro_option_value] and [find_amer_option_value] with the outer
    loop cut at [range(k)] and the row returned instead of subscripted. *)
Definition euro_row_after (k : nat) (S_0 r sigma T : R) (steps : nat)
           (E : R) (option_type : string) : result (list value) :=
  ' (dt, u, d) <- find_dt_u_d r sigma T steps ;;
  tree <- produce_tree S_0 r sigma T steps ;;
  let tree_len := Z.of_nat (List.length tree) in
  final_row <- getitem tree (tree_len - 1) ;;
  payoff_row <- for_each
                  (fun value payoff_row =>
                     let pay_value := payoff value E option_type in
                     Ok (payoff_row ++ [pay_value]))
                  final_row [] ;;
  let discount := exp (- r * dt) in
  for_each (fun _ payoff_row => euro_step discount payoff_row)
           (range k) payoff_row.

Definition amer_row_after (k : nat) (S_0 r sigma T : R) (steps : nat)
           (E : R) (option_type : string)
  : result (list value * option bool) :=
  ' (dt, u, d) <- find_dt_u_d r sigma T steps ;;
  tree <- produce_tree S_0 r sigma T steps ;;
  let tree_len := Z.of_nat (List.length tree) in
  final_row <- getitem tree (tree_len - 1) ;;
  payoff_row <- for_each
                  (fun value payoff_row =>
                     let pay_value := payoff value E option_type in
                     Ok (payoff_row ++ [pay_value]))
                  final_row [] ;;
  let discount := exp (- r * dt) in
  for_each (amer_step discount E option_type tree tree_len)
           (range k) (payoff_row, None).

End Lattice.

(** ** The first binomial script: European calls only *)

(** The file opens with an earlier version of the script; its
    [find_dt_u_d] and [produce_tree] are the ones above, line for line. *)
Module BinomialCall.

Import Binomial.

Definition euro_call (S E : R) : R :=
  if Rgt_dec S E then S - E else 0.

Definition euro_call_value (S_0 r sigma T : R) (steps : nat) (E : R)
  : result R :=
  ' (dt, u, d) <- find_dt_u_d r sigma T steps ;;
  tree <- produce_tree S_0 r sigma T steps ;;
  let tree_len := Z.of_nat (List.length tree) in
  final_row <- getitem tree (tree_len - 1) ;;
  payoff_row <- for_each
                  (fun value payoff_row =>
                     let pay_value := euro_call value E in
                     Ok (payoff_row ++ [pay_value]))
                  final_row [] ;;
  let discount := exp (- r * dt) in
  payoff_row <-
    for_each
      (fun (_ : nat) (payoff_row : list R) =>
         for_each
           (fun j new_row =>
              a <- getitem payoff_row (Z.of_nat j) ;;
              b <- getitem payoff_row (Z.of_nat j + 1) ;;
              let new_value := discount * 0.5 * (a + b) in
              Ok (new_row ++ [new_value]))
           (range (List.length payoff_row - 1)) [])
      (range steps) payoff_row ;;
  getitem payoff_row 0.

End BinomialCall.

(** ** [GeomStockPrice.py]: one simulated path *)

Module GeomStockPrice.

(** [np.random.normal(loc, scale)] returns [loc + scale * z] for the next
    standard-normal variate [z] of the generator.  The variates handed out
    during one call are the sequence [gauss]; iteration [i] of the loop
    consumes [gauss i].  [np.sqrt] is the one of the binomial script: the
    statements assume [0 <= T].  The loop state is [(S, t, S_now, t_now)];
    the list [S] is written [S_], as [S] is the successor of [nat]. *)
Definition find_stock_price (gauss : nat -> R) (S_0 r sigma T : R)
           (steps : nat) : result (list R * list R) :=
  dt <- py_div T (INR steps) ;;
  ' (S_, t, _, _) <-
    for_each
      (fun i (st : list R * list R * R * R) =>
         let '(S_, t, S_now, t_now) := st in
         let drift := r * S_now * dt in
         let vol := sigma * S_now * (0 + Binomial.np_sqrt dt * gauss i) in
         let dS := drift + vol in
         let S_now := S_now + dS in
         let t_now := t_now + dt in
         Ok (S_ ++ [S_now], t ++ [t_now], S_now, t_now))
      (range steps) ([S_0], [0], S_0, 0) ;;
  Ok (S_, t).

End GeomStockPrice.

(** ** [MonteCarloOptions.py]: path-dependent payoffs *)

Module MonteCarloOptions.

(** A numpy float: a number, or [nan]. *)
Inductive npfloat : Type :=
| Fin (x : R)
| NaN.

(** [np.mean]: the mean of an empty sequence is [nan] (with a warning). *)
Definition np_mean (S : list R) : npfloat :=
  match S with
  | [] => NaN
  | _ :: _ => Fin (fold_right Rplus 0 S / INR (List.length S))
  end.

(** Comparisons with [nan] are false. *)
Definition np_gt (a : npfloat) (b : R) : bool :=
  match a with
  | Fin x => if Rgt_dec x b then true else false
  | NaN => false
  end.

Definition np_sub (a : npfloat) (b : R) : npfloat :=
  match a with
  | Fin x => Fin (x - b)
  | NaN => NaN
  end.

Definition find_average (S : list R) : npfloat :=
  let avg_S := np_mean S in
  avg_S.

Definition asian_call_payoff (S : list R) (E : R) : npfloat :=
  let avg_S := find_average S in
  if np_gt avg_S E then np_sub avg_S E else Fin 0.

(** What the builtin [max] does with a list: it raises [ValueError] on an
    empty one, otherwise it keeps the first of the largest elements. *)
Inductive outcome : Type :=
| Returns (x : R)
| RaisesValueError.

Definition builtin_max (S : list R) : outcome :=
  match S with
  | [] => RaisesValueError
  | x :: rest =>
      Returns (fold_left (fun m y => if Rgt_dec y m then y else m) rest x)
  end.

Definition lookback_call_payoff (S : list R) (E : R) : outcome :=
  match builtin_max S with
  | Returns max_S => if Rgt_dec max_S E then Returns (max_S - E) else Returns 0
  | RaisesValueError => RaisesValueError
  end.

End MonteCarloOptions.

(** ** Closed forms used in the statements *)

Module Closed.

(** Forward difference of [V] over [S] at index [i]. *)
Definition slope (V S : list R) (i : nat) : R :=
  (nth (i + 1) V 0 - nth i V 0) / (nth (i + 1) S 0 - nth i S 0).

(** Second difference of [V] at index [i], over one spacing of [S]. *)
Definition bend (V S : list R) (i : nat) : R :=
  (nth (i - 1) V 0 - 2 * nth i V 0 + nth (i + 1) V 0)
  / (nth (i + 1) S 0 - nth i S 0).

(** Neighbouring grid points differ. *)
Definition distinct_neighbours (S : list R) : Prop :=
  forall i, (i + 1 < List.length S)%nat -> nth (i + 1) S 0 <> nth i S 0.

(** Entry [(i, j)] of a tree returned by [produce_tree]. *)
Definition node (tree : list (list R)) (i j : nat) : R :=
  nth j (nth i tree []) 0.

(** The simulated price after [k] steps: each step multiplies by
    [1 + r*dt + sigma*(0 + sqrt(dt)*z)]. *)
Fixpoint gbm (gauss : nat -> R) (S_0 r sigma dt : R) (k : nat) : R :=
  match k with
  | O => S_0
  | S k' =>
      let S_now := gbm gauss S_0 r sigma dt k' in
      S_now + (r * S_now * dt + sigma * S_now * (0 + sqrt dt * gauss k'))
  end.

(** Arithmetic mean of a non-empty list. *)
Definition mean (S : list R) : R := fold_right Rplus 0 S / INR (List.length S).

(** One pass of the loop of [find_option_value]. *)
Definition solver_pass (S_list : list R) (r sigma dt : R) (_ : nat)
           (st : list (list R) * list R * list R * R)
  : result (list (list R) * list R * list R * R) :=
  let '(V_data, t_list, V_now, t_now) := st in
  dVdt_list <- BlackScholes.find_dVdt V_now S_list r sigma ;;
  V_new <- BlackScholes.update_V V_now dVdt_list dt ;;
  let t_new := t_now + dt in
  Ok (V_data ++ [V_new], t_list ++ [t_new], V_new, t_new).

End Closed.

(** ** Loops that only append, and subscripts that stay in range *)

Section Loops.

Context {A B : Type}.

Lemma for_each_app {St : Type} (body : A -> St -> result St) l1 l2 s :
  for_each body (l1 ++ l2) s = (s' <- for_each body l1 s ;; for_each body l2 s').
Proof.
  revert s. induction l1 as [|x l1 IH]; intros s; simpl; [reflexivity|].
  destruct (body x s) as [s'|e]; simpl; [apply IH | reflexivity].
Qed.

(** A loop whose body appends one computed element per iteration builds
    the image of the iterated list. *)
Lemma for_each_append (f : A -> B) l acc :
  for_each (fun x acc => Ok (acc ++ [f x])) l acc = Ok (acc ++ map f l).
Proof.
  revert acc. induction l as [|x l IH]; intros acc; simpl.
  - now rewrite app_nil_r.
  - rewrite IH, <- app_assoc. reflexivity.
Qed.

(** The same when each iteration may raise but does not. *)
Lemma for_each_append_ok (body : A -> list B -> result (list B))
      (f : A -> B) l acc :
  (forall x acc', In x l -> body x acc' = Ok (acc' ++ [f x])) ->
  for_each body l acc = Ok (acc ++ map f l).
Proof.
  revert acc. induction l as [|x l IH]; intros acc Hb; simpl.
  - now rewrite app_nil_r.
  - rewrite Hb by now left. simpl.
    rewrite IH by (intros; apply Hb; now right).
    rewrite <- app_assoc. reflexivity.
Qed.

Lemma getitem_nat (l : list A) (j : nat) (a : A) :
  nth_error l j = Some a -> getitem l (Z.of_nat j) = Ok a.
Proof.
  intros H. unfold getitem.
  assert (Hlt : (j < List.length l)%nat)
    by (apply nth_error_Some; congruence).
  destruct (Z.ltb_spec (Z.of_nat j) 0) as [Hneg|_]; [lia|].
  destruct (Z.leb_spec 0 (Z.of_nat j)) as [_|Hneg]; [|lia].
  destruct (Z.ltb_spec (Z.of_nat j) (Z.of_nat (List.length l))) as [_|Hge];
    [|lia].
  simpl. now rewrite Nat2Z.id, H.
Qed.

End Loops.

Lemma getitem_map_seq {A : Type} (f : nat -> A) (n j : nat) :
  (j < n)%nat -> getitem (map f (seq 0 n)) (Z.of_nat j) = Ok (f j).
Proof.
  intros H. apply getitem_nat.
  rewrite nth_error_map, nth_error_seq.
  destruct (Nat.ltb_spec j n); [reflexivity | lia].
Qed.

(** A loop that appends one element per iteration and overwrites a flag:
    the flag that survives is the one of the last iteration. *)
Lemma for_each_append_flag {A B C : Type}
      (body : A -> list B * option C -> result (list B * option C))
      (f : A -> B) (g : A -> C) l acc c :
  (forall x acc' c', In x l -> body x (acc', c') = Ok (acc' ++ [f x], Some (g x))) ->
  for_each body l (acc, c)
  = Ok (acc ++ map f l, fold_left (fun _ x => Some (g x)) l c).
Proof.
  revert acc c. induction l as [|x l IH]; intros acc c Hb; simpl.
  - now rewrite app_nil_r.
  - rewrite Hb by now left. simpl.
    rewrite IH by (intros; apply Hb; now right).
    rewrite <- app_assoc. reflexivity.
Qed.

Lemma last_flag_seq {C : Type} (g : nat -> C) (n : nat) (c : option C) :
  fold_left (fun _ x => Some (g x)) (seq 0 (S n)) c = Some (g n).
Proof.
  rewrite seq_S, fold_left_app. reflexivity.
Qed.

Lemma Rmax_gt_dec (a y : R) : (if Rgt_dec y a then y else a) = Rmax a y.
Proof.
  unfold Rmax. destruct (Rgt_dec y a), (Rle_dec a y); try reflexivity; lra.
Qed.

(** ** Facts about the binomial script *)

Import Binomial Lattice.

Lemma find_dt_u_d_ok (r sigma T : R) (N : nat) :
  (1 <= N)%nat ->
  find_dt_u_d r sigma T N
  = Ok (lattice_dt T N, lattice_u r sigma T N, lattice_d r sigma T N).
Proof.
  intros HN. unfold find_dt_u_d, py_div.
  destruct (Req_dec_T (INR N) 0) as [H0|_].
  - exfalso. apply (not_0_INR N); [lia | exact H0].
  - reflexivity.
Qed.

Lemma find_dt_u_d_zero_steps (r sigma T : R) :
  find_dt_u_d r sigma T 0 = Raise ZeroDivisionError.
Proof.
  unfold find_dt_u_d, py_div. simpl INR.
  destruct (Req_dec_T 0 0) as [_|H]; [reflexivity | contradiction H; reflexivity].
Qed.

Lemma produce_tree_ok (S0 r sigma T : R) (N : nat) :
  (1 <= N)%nat ->
  produce_tree S0 r sigma T N
  = Ok (tree_of S0 (lattice_u r sigma T N) (lattice_d r sigma T N) N).
Proof.
  intros HN. unfold produce_tree. rewrite find_dt_u_d_ok by exact HN. simpl bind.
  unfold range, tree_of.
  rewrite for_each_append_ok
    with (f := fun i => map (price S0 (lattice_u r sigma T N)
                                   (lattice_d r sigma T N) i) (seq 0 (i + 1))).
  - reflexivity.
  - intros i acc _. rewrite for_each_append. reflexivity.
Qed.

Lemma tree_of_level (S0 u d : R) (N i : nat) :
  (i <= N)%nat ->
  getitem (tree_of S0 u d N) (Z.of_nat i)
  = Ok (map (price S0 u d i) (seq 0 (i + 1))).
Proof.
  intros H. unfold tree_of.
  rewrite getitem_map_seq by lia. reflexivity.
Qed.

Lemma tree_of_length (S0 u d : R) (N : nat) :
  List.length (tree_of S0 u d N) = (N + 1)%nat.
Proof. unfold tree_of. now rewrite length_map, length_seq. Qed.

Lemma payoff_recognized (S E : R) (kind : string) :
  recognized kind = true -> payoff S E kind = Num (intrinsic S E kind).
Proof.
  unfold recognized, intrinsic, payoff. intros H.
  destruct (kind =? "call")%string; [destruct (Rgt_dec (S - E) 0); reflexivity|].
  destruct (kind =? "put")%string; [destruct (Rgt_dec (E - S) 0); reflexivity|].
  destruct (kind =? "cash_or_nothing_call")%string;
    [destruct (Rgt_dec (S - E) 0); reflexivity|].
  destruct (kind =? "cash_or_nothing_put")%string;
    [destruct (Rgt_dec (E - S) 0); reflexivity|].
  discriminate H.
Qed.

Lemma getitem_row {n : nat} (f : nat -> R) (j : nat) :
  (j < n)%nat -> getitem (map Num (map f (seq 0 n))) (Z.of_nat j) = Ok (Num (f j)).
Proof.
  intros H. rewrite map_map. now rewrite getitem_map_seq.
Qed.

Lemma getitem_row_succ {n : nat} (f : nat -> R) (j : nat) :
  (S j < n)%nat ->
  getitem (map Num (map f (seq 0 n))) (Z.of_nat j + 1) = Ok (Num (f (S j))).
Proof.
  intros H. replace (Z.of_nat j + 1)%Z with (Z.of_nat (S j)) by lia.
  now apply getitem_row.
Qed.

Lemma row_length (f : nat -> R) (n : nat) :
  List.length (map Num (map f (seq 0 n))) = n.
Proof. now rewrite !length_map, length_seq. Qed.

(** One pass of the European loop body over a row of [n + 1] numbers. *)
Lemma euro_step_row (discount : R) (f : nat -> R) (n : nat) :
  euro_step discount (map Num (map f (seq 0 (S n))))
  = Ok (map Num (map (fun j => discount * 0.5 * (f j + f (S j))) (seq 0 n))).
Proof.
  unfold euro_step, range. rewrite row_length.
  replace (S n - 1)%nat with n by lia.
  rewrite for_each_append_ok
    with (f := fun j => Num (discount * 0.5 * (f j + f (S j)))).
  - now rewrite map_map.
  - intros j acc Hj. apply in_seq in Hj.
    rewrite getitem_row by lia. rewrite getitem_row_succ by lia.
    reflexivity.
Qed.

(** [k] passes, starting from the leaves. *)
Lemma euro_loop_rows (discount : R) (leaf : nat -> R) (N k : nat) :
  (k <= N)%nat ->
  for_each (fun _ : nat => euro_step discount) (range k)
           (map Num (map leaf (seq 0 (N + 1))))
  = Ok (map Num (map (hold_node discount leaf k) (seq 0 (N - k + 1)))).
Proof.
  unfold range. induction k as [|k IH]; intros Hk.
  - simpl. now rewrite Nat.sub_0_r.
  - rewrite seq_S, for_each_app, IH by lia. simpl.
    replace (N - k + 1)%nat with (S (N - S k + 1)) by lia.
    rewrite euro_step_row. reflexivity.
Qed.

(** The terminal row both pricers start from. *)
Lemma terminal_row (S0 u d E : R) (kind : string) (N : nat) :
  recognized kind = true ->
  for_each (fun value payoff_row => Ok (payoff_row ++ [payoff value E kind]))
           (map (price S0 u d N) (seq 0 (N + 1))) []
  = Ok (map Num (map (fun j => intrinsic (price S0 u d N j) E kind)
                     (seq 0 (N + 1)))).
Proof.
  intros Hk. rewrite for_each_append. simpl. f_equal.
  rewrite !map_map. apply map_ext. intros j. now apply payoff_recognized.
Qed.

Lemma final_row_ok (S0 u d : R) (N : nat) :
  getitem (tree_of S0 u d N) (Z.of_nat (List.length (tree_of S0 u d N)) - 1)
  = Ok (map (price S0 u d N) (seq 0 (N + 1))).
Proof.
  rewrite tree_of_length.
  replace (Z.of_nat (N + 1) - 1)%Z with (Z.of_nat N) by lia.
  now apply tree_of_level.
Qed.

Lemma euro_row_after_ok (S0 r sigma T : R) (N : nat) (E : R) (kind : string)
      (k : nat) :
  (1 <= N)%nat -> recognized kind = true -> (k <= N)%nat ->
  euro_row_after k S0 r sigma T N E kind
  = Ok (map Num (map (euro_V S0 r sigma T N E kind (N - k)) (seq 0 (N - k + 1)))).
Proof.
  intros HN Hkind Hk. unfold euro_row_after.
  rewrite find_dt_u_d_ok, produce_tree_ok by exact HN. simpl bind.
  rewrite final_row_ok. simpl bind.
  rewrite terminal_row by exact Hkind. simpl bind.
  rewrite euro_loop_rows by exact Hk.
  unfold euro_V. replace (N - (N - k))%nat with k by lia. reflexivity.
Qed.

Lemma find_euro_from_rows (S0 r sigma T : R) (N : nat) (E : R) (kind : string) :
  find_euro_option_value S0 r sigma T N E kind
  = (payoff_row <- euro_row_after N S0 r sigma T N E kind ;;
     getitem payoff_row 0).
Proof.
  unfold find_euro_option_value, euro_row_after.
  destruct (find_dt_u_d r sigma T N) as [[[dt u] d]|e]; [|reflexivity]. simpl.
  destruct (produce_tree S0 r sigma T N) as [tree|e]; [|reflexivity]. simpl.
  destruct (getitem tree _) as [final_row|e]; [|reflexivity]. simpl.
  destruct (for_each _ final_row []) as [row|e]; reflexivity.
Qed.

Lemma find_euro_ok (S0 r sigma T : R) (N : nat) (E : R) (kind : string) :
  (1 <= N)%nat -> recognized kind = true ->
  find_euro_option_value S0 r sigma T N E kind
  = Ok (Num (euro_V S0 r sigma T N E kind 0 0)).
Proof.
  intros HN Hkind. rewrite find_euro_from_rows.
  rewrite euro_row_after_ok by (try assumption; lia).
  rewrite Nat.sub_diag. reflexivity.
Qed.

(** One pass of the American loop body, at outer index [k]. *)
Lemma amer_step_row (discount E : R) (kind : string) (S0 u d : R)
      (N k : nat) (f : nat -> R) (ex : option bool) :
  (k < N)%nat -> recognized kind = true ->
  let hold := fun j => discount * 0.5 * (f j + f (S j)) in
  let exv := fun j => intrinsic (price S0 u d (N - S k) j) E kind in
  amer_step discount E kind (tree_of S0 u d N) (Z.of_nat (N + 1)) k
            (map Num (map f (seq 0 (N - k + 1))), ex)
  = Ok (map Num (map (fun j => Rmax (hold j) (exv j)) (seq 0 (N - S k + 1))),
        Some (if Rgt_dec (exv (N - S k)%nat) (hold (N - S k)%nat)
              then true else false)).
Proof.
  intros Hk Hkind hold exv. unfold amer_step.
  replace (Z.of_nat (N + 1) - 2 - Z.of_nat k)%Z with (Z.of_nat (N - S k)) by lia.
  rewrite tree_of_level by lia. simpl bind.
  rewrite row_length. unfold range.
  replace (N - k + 1 - 1)%nat with (S (N - S k)) by lia.
  rewrite for_each_append_flag
    with (f := fun j => Num (Rmax (hold j) (exv j)))
         (g := fun j => if Rgt_dec (exv j) (hold j) then true else false).
  - rewrite last_flag_seq. simpl.
    replace (N - S k + 1)%nat with (S (N - S k)) by lia.
    now rewrite map_map.
  - intros j acc c Hj. apply in_seq in Hj.
    rewrite getitem_row by lia. rewrite getitem_row_succ by lia. simpl bind.
    rewrite getitem_map_seq by lia. simpl bind.
    rewrite payoff_recognized by exact Hkind. simpl bind.
    rewrite Rmax_gt_dec. reflexivity.
Qed.

(** [k] passes of the American loop, starting from the leaves. *)
Lemma amer_loop_rows (discount E : R) (kind : string) (S0 u d : R) (N k : nat) :
  (k <= N)%nat -> recognized kind = true ->
  let leaf := fun j => intrinsic (price S0 u d N j) E kind in
  let exv := fun k' j => intrinsic (price S0 u d (N - S k') j) E kind in
  for_each (amer_step discount E kind (tree_of S0 u d N) (Z.of_nat (N + 1)))
           (range k) (map Num (map leaf (seq 0 (N + 1))), None)
  = Ok (map Num (map (stop_node discount leaf exv k) (seq 0 (N - k + 1))),
        stop_flag discount leaf exv N k).
Proof.
  intros Hk Hkind leaf exv. unfold range.
  induction k as [|k IH].
  - simpl. now rewrite Nat.sub_0_r.
  - rewrite seq_S, for_each_app, IH by lia. cbn [for_each bind Nat.add].
    rewrite amer_step_row by (try assumption; lia). reflexivity.
Qed.

Lemma amer_row_after_ok (S0 r sigma T : R) (N : nat) (E : R) (kind : string)
      (k : nat) :
  (1 <= N)%nat -> recognized kind = true -> (k <= N)%nat ->
  amer_row_after k S0 r sigma T N E kind
  = Ok (map Num (map (amer_V S0 r sigma T N E kind (N - k)) (seq 0 (N - k + 1))),
        match k with
        | O => None
        | S _ => Some (amer_exercise S0 r sigma T N E kind (N - k) (N - k))
        end).
Proof.
  intros HN Hkind Hk. unfold amer_row_after.
  rewrite find_dt_u_d_ok, produce_tree_ok by exact HN. simpl bind.
  rewrite final_row_ok. simpl bind.
  rewrite terminal_row by exact Hkind. simpl bind.
  rewrite tree_of_length.
  rewrite amer_loop_rows by assumption.
  unfold amer_V. replace (N - (N - k))%nat with k by lia.
  f_equal. f_equal.
  destruct k as [|k]; [reflexivity|].
  unfold stop_flag, amer_exercise, amer_hold, amer_V.
  replace (N - S (N - S k))%nat with k by lia. reflexivity.
Qed.

Lemma find_amer_from_rows (S0 r sigma T : R) (N : nat) (E : R) (kind : string) :
  find_amer_option_value S0 r sigma T N E kind
  = (' (payoff_row, exercise) <- amer_row_after N S0 r sigma T N E kind ;;
     amer_option_value <- getitem payoff_row 0 ;;
     exercise <- read_local exercise ;;
     Ok (amer_option_value, exercise)).
Proof.
  unfold find_amer_option_value, amer_row_after.
  destruct (find_dt_u_d r sigma T N) as [[[dt u] d]|e]; [|reflexivity]. simpl.
  destruct (produce_tree S0 r sigma T N) as [tree|e]; [|reflexivity]. simpl.
  destruct (getitem tree _) as [final_row|e]; [|reflexivity]. simpl.
  destruct (for_each _ final_row []) as [row|e]; reflexivity.
Qed.

Lemma find_amer_ok (S0 r sigma T : R) (N : nat) (E : R) (kind : string) :
  (1 <= N)%nat -> recognized kind = true ->
  find_amer_option_value S0 r sigma T N E kind
  = Ok (Num (amer_V S0 r sigma T N E kind 0 0),
        amer_exercise S0 r sigma T N E kind 0 0).
Proof.
  intros HN Hkind. rewrite find_amer_from_rows.
  rewrite amer_row_after_ok by (try assumption; lia).
  rewrite Nat.sub_diag. destruct N as [|N]; [lia|]. reflexivity.
Qed.

(** ** Equations of the two value lattices *)

Section LatticeEquations.

Variables (S0 r sigma T : R) (N : nat) (E : R) (kind : string).

Lemma euro_V_leaf (j : nat) :
  euro_V S0 r sigma T N E kind N j
  = intrinsic (price S0 (lattice_u r sigma T N) (lattice_d r sigma T N) N j) E kind.
Proof. unfold euro_V. now rewrite Nat.sub_diag. Qed.

Lemma euro_V_inner (i j : nat) :
  (i < N)%nat ->
  euro_V S0 r sigma T N E kind i j
  = exp (- r * lattice_dt T N) * 0.5
    * (euro_V S0 r sigma T N E kind (i + 1) j
       + euro_V S0 r sigma T N E kind (i + 1) (j + 1)).
Proof.
  intros Hi. unfold euro_V.
  replace (N - i)%nat with (S (N - (i + 1))) by lia.
  replace (j + 1)%nat with (S j) by lia. reflexivity.
Qed.

Lemma amer_V_leaf (j : nat) :
  amer_V S0 r sigma T N E kind N j
  = intrinsic (price S0 (lattice_u r sigma T N) (lattice_d r sigma T N) N j) E kind.
Proof. unfold amer_V. now rewrite Nat.sub_diag. Qed.

Lemma amer_V_inner (i j : nat) :
  (i < N)%nat ->
  amer_V S0 r sigma T N E kind i j
  = Rmax (exp (- r * lattice_dt T N) * 0.5
          * (amer_V S0 r sigma T N E kind (i + 1) j
             + amer_V S0 r sigma T N E kind (i + 1) (j + 1)))
         (intrinsic (price S0 (lattice_u r sigma T N) (lattice_d r sigma T N) i j)
                    E kind).
Proof.
  intros Hi. unfold amer_V.
  replace (N - i)%nat with (S (N - (i + 1))) by lia.
  replace (j + 1)%nat with (S j) by lia. cbn [stop_node].
  replace (N - S (N - (i + 1)))%nat with i by lia. reflexivity.
Qed.

End LatticeEquations.

(** ** The payoff function *)

(** C9: [payoff] is [max(S-E, 0)] for a call, [max(E-S, 0)] for a put, [10]
    when [S > E] and [0] otherwise for a cash-or-nothing call, [10] when
    [E > S] and [0] otherwise for a cash-or-nothing put; at [S = E] it is
    [0] for each of the four kinds. *)
Theorem payoff_four_kinds (S E : R) :
  payoff S E "call" = Num (Rmax (S - E) 0)
  /\ payoff S E "put" = Num (Rmax (E - S) 0)
  /\ payoff S E "cash_or_nothing_call" = Num (if Rgt_dec S E then 10 else 0)
  /\ payoff S E "cash_or_nothing_put" = Num (if Rgt_dec E S then 10 else 0)
  /\ payoff E E "call" = Num 0
  /\ payoff E E "put" = Num 0
  /\ payoff E E "cash_or_nothing_call" = Num 0
  /\ payoff E E "cash_or_nothing_put" = Num 0.
Proof.
  unfold payoff. cbn [String.eqb Ascii.eqb Bool.eqb andb].
  repeat split.
  - unfold Rmax. destruct (Rgt_dec (S - E) 0), (Rle_dec (S - E) 0);
      try reflexivity; lra.
  - unfold Rmax. destruct (Rgt_dec (E - S) 0), (Rle_dec (E - S) 0);
      try reflexivity; lra.
  - destruct (Rgt_dec (S - E) 0), (Rgt_dec S E); try reflexivity; lra.
  - destruct (Rgt_dec (E - S) 0), (Rgt_dec E S); try reflexivity; lra.
  - destruct (Rgt_dec (E - E) 0); [lra | reflexivity].
  - destruct (Rgt_dec (E - E) 0); [lra | reflexivity].
  - destruct (Rgt_dec (E - E) 0); [lra | reflexivity].
  - destruct (Rgt_dec (E - E) 0); [lra | reflexivity].
Qed.

(** ** European pricing *)

(** C1: for [S0 > 0], [sigma > 0], [T > 0], [N >= 1] and a recognised
    kind, [find_euro_option_value] returns the root of the backward
    induction over the tree of [produce_tree]: with [(dt, u, d)] from
    [find_dt_u_d] and [dt = T/N], level [N] holds
    [payoff(S0*u^j*d^(N-j), E, kind)], every earlier node is
    [exp(-r*dt)*0.5*(V[i+1][j] + V[i+1][j+1])], the row the loop holds after
    [k] passes is level [N-k], and the result is the single level-0 value. *)
Theorem find_euro_option_value_backward_induction
        (S0 r sigma T : R) (N : nat) (E : R) (kind : string) :
  0 < S0 -> 0 < sigma -> 0 < T -> (1 <= N)%nat -> recognized kind = true ->
  exists dt u d : R,
    let V := euro_V S0 r sigma T N E kind in
    find_dt_u_d r sigma T N = Ok (dt, u, d)
    /\ dt = T / INR N
    /\ produce_tree S0 r sigma T N
       = Ok (map (fun i => map (fun j => S0 * u ^ j * d ^ (i - j)) (seq 0 (i + 1)))
                 (seq 0 (N + 1)))
    /\ (forall j, (j <= N)%nat ->
          payoff (S0 * u ^ j * d ^ (N - j)) E kind = Num (V N j))
    /\ (forall i j, (i < N)%nat -> (j <= i)%nat ->
          V i j = exp (- r * dt) * 0.5 * (V (i + 1)%nat j + V (i + 1)%nat (j + 1)%nat))
    /\ (forall k, (k <= N)%nat ->
          euro_row_after k S0 r sigma T N E kind
          = Ok (map Num (map (V (N - k)%nat) (seq 0 (N - k + 1)))))
    /\ find_euro_option_value S0 r sigma T N E kind = Ok (Num (V 0%nat 0%nat)).
Proof.
  intros _ _ _ HN Hkind.
  exists (lattice_dt T N), (lattice_u r sigma T N), (lattice_d r sigma T N).
  cbv zeta. repeat split.
  - now apply find_dt_u_d_ok.
  - now apply produce_tree_ok.
  - intros j _. rewrite euro_V_leaf. now apply payoff_recognized.
  - intros i j Hi _. now apply euro_V_inner.
  - intros k Hk. now apply euro_row_after_ok.
  - now apply find_euro_ok.
Qed.

Lemma find_euro_option_value_backward_induction_witness :
  exists dt u d : R,
    let V := euro_V 100 0 1 1 1 100 "call" in
    find_dt_u_d 0 1 1 1 = Ok (dt, u, d)
    /\ dt = 1 / INR 1
    /\ produce_tree 100 0 1 1 1
       = Ok (map (fun i => map (fun j => 100 * u ^ j * d ^ (i - j)) (seq 0 (i + 1)))
                 (seq 0 (1 + 1)))
    /\ (forall j, (j <= 1)%nat ->
          payoff (100 * u ^ j * d ^ (1 - j)) 100 "call" = Num (V 1%nat j))
    /\ (forall i j, (i < 1)%nat -> (j <= i)%nat ->
          V i j = exp (- 0 * dt) * 0.5 * (V (i + 1)%nat j + V (i + 1)%nat (j + 1)%nat))
    /\ (forall k, (k <= 1)%nat ->
          euro_row_after k 100 0 1 1 1 100 "call"
          = Ok (map Num (map (V (1 - k)%nat) (seq 0 (1 - k + 1)))))
    /\ find_euro_option_value 100 0 1 1 1 100 "call" = Ok (Num (V 0%nat 0%nat)).
Proof.
  apply (find_euro_option_value_backward_induction 100 0 1 1 1 100 "call");
    [lra | lra | lra | lia | reflexivity].
Defined.

(** ** American pricing *)

(** C2: for [0 <= T], [N >= 1] and a recognised kind, every non-terminal
    node of [find_amer_option_value] is [max(hold_value, exercise_value)] with
    [hold_value = exp(-r*dt)*0.5*(V[i+1][j] + V[i+1][j+1])] and
    [exercise_value = payoff(tree[i][j], E, kind)]; the function returns the
    root value together with the Boolean [exercise_value > hold_value] of
    the root node. *)
Theorem find_amer_option_value_max_and_flag
        (S0 r sigma T : R) (N : nat) (E : R) (kind : string) :
  0 <= T -> (1 <= N)%nat -> recognized kind = true ->
  exists dt u d : R,
    let V := amer_V S0 r sigma T N E kind in
    let hold := fun i j =>
      exp (- r * dt) * 0.5 * (V (i + 1)%nat j + V (i + 1)%nat (j + 1)%nat) in
    find_dt_u_d r sigma T N = Ok (dt, u, d)
    /\ (forall j, (j <= N)%nat ->
          payoff (S0 * u ^ j * d ^ (N - j)) E kind = Num (V N j))
    /\ (forall i j, (i < N)%nat -> (j <= i)%nat ->
          exists exercise_value,
            payoff (S0 * u ^ j * d ^ (i - j)) E kind = Num exercise_value
            /\ V i j = Rmax (hold i j) exercise_value)
    /\ (forall k, (k <= N)%nat ->
          exists exercise,
            amer_row_after k S0 r sigma T N E kind
            = Ok (map Num (map (V (N - k)%nat) (seq 0 (N - k + 1))), exercise))
    /\ exists exercise_value,
         payoff (S0 * u ^ 0 * d ^ (0 - 0)) E kind = Num exercise_value
         /\ find_amer_option_value S0 r sigma T N E kind
            = Ok (Num (V 0%nat 0%nat),
                  if Rgt_dec exercise_value (hold 0%nat 0%nat) then true else false).
Proof.
  intros _ HN Hkind.
  exists (lattice_dt T N), (lattice_u r sigma T N), (lattice_d r sigma T N).
  cbv zeta. split; [now apply find_dt_u_d_ok|].
  split; [|split; [|split]].
  - intros j _. rewrite amer_V_leaf. now apply payoff_recognized.
  - intros i j Hi _. eexists. split.
    + now apply payoff_recognized.
    + now apply amer_V_inner.
  - intros k Hk. eexists. now apply amer_row_after_ok.
  - eexists. split.
    + now apply payoff_recognized.
    + now apply find_amer_ok.
Qed.

Lemma find_amer_option_value_max_and_flag_witness :
  exists dt u d : R,
    let V := amer_V 100 0 1 1 2 100 "put" in
    let hold := fun i j =>
      exp (- 0 * dt) * 0.5 * (V (i + 1)%nat j + V (i + 1)%nat (j + 1)%nat) in
    find_dt_u_d 0 1 1 2 = Ok (dt, u, d)
    /\ (forall j, (j <= 2)%nat ->
          payoff (100 * u ^ j * d ^ (2 - j)) 100 "put" = Num (V 2%nat j))
    /\ (forall i j, (i < 2)%nat -> (j <= i)%nat ->
          exists exercise_value,
            payoff (100 * u ^ j * d ^ (i - j)) 100 "put" = Num exercise_value
            /\ V i j = Rmax (hold i j) exercise_value)
    /\ (forall k, (k <= 2)%nat ->
          exists exercise,
            amer_row_after k 100 0 1 1 2 100 "put"
            = Ok (map Num (map (V (2 - k)%nat) (seq 0 (2 - k + 1))), exercise))
    /\ exists exercise_value,
         payoff (100 * u ^ 0 * d ^ (0 - 0)) 100 "put" = Num exercise_value
         /\ find_amer_option_value 100 0 1 1 2 100 "put"
            = Ok (Num (V 0%nat 0%nat),
                  if Rgt_dec exercise_value (hold 0%nat 0%nat) then true else false).
Proof.
  apply (find_amer_option_value_max_and_flag 100 0 1 1 2 100 "put");
    [lra | lia | reflexivity].
Defined.

(** ** Dominance and sign *)

Lemma hold_le_stop (discount : R) (leaf : nat -> R) (exv : nat -> nat -> R)
      (k j : nat) :
  0 <= discount ->
  hold_node discount leaf k j <= stop_node discount leaf exv k j.
Proof.
  intros Hd. revert j. induction k as [|k IH]; intros j; cbn [hold_node stop_node].
  - lra.
  - eapply Rle_trans; [|apply Rmax_l].
    pose proof (IH j). pose proof (IH (S j)). nra.
Qed.

Lemma hold_node_nonneg (discount : R) (leaf : nat -> R) (k j : nat) :
  0 <= discount -> (forall i, 0 <= leaf i) ->
  0 <= hold_node discount leaf k j.
Proof.
  intros Hd Hl. revert j. induction k as [|k IH]; intros j; cbn [hold_node].
  - apply Hl.
  - pose proof (IH j). pose proof (IH (S j)). nra.
Qed.

Lemma intrinsic_nonneg (S E : R) (kind : string) : 0 <= intrinsic S E kind.
Proof.
  unfold intrinsic, payoff.
  repeat match goal with
         | |- context [if ?b then _ else _] => destruct b
         end; lra.
Qed.

Lemma Forall2_map_seq (P : R -> R -> Prop) (f g : nat -> R) (l : list nat) :
  (forall j, P (f j) (g j)) -> Forall2 P (map f l) (map g l).
Proof.
  intros H. induction l as [|x l IH]; simpl; constructor; auto.
Qed.

Lemma Forall_map_seq (P : R -> Prop) (f : nat -> R) (l : list nat) :
  (forall j, P (f j)) -> Forall P (map f l).
Proof.
  intros H. induction l as [|x l IH]; simpl; constructor; auto.
Qed.

Lemma euro_V_le_amer_V (S0 r sigma T : R) (N : nat) (E : R) (kind : string)
      (i j : nat) :
  euro_V S0 r sigma T N E kind i j <= amer_V S0 r sigma T N E kind i j.
Proof.
  unfold euro_V, amer_V. apply hold_le_stop. left. apply exp_pos.
Qed.

Lemma euro_V_nonneg (S0 r sigma T : R) (N : nat) (E : R) (kind : string)
      (i j : nat) :
  0 <= euro_V S0 r sigma T N E kind i j.
Proof.
  unfold euro_V. apply hold_node_nonneg.
  - left. apply exp_pos.
  - intros. apply intrinsic_nonneg.
Qed.

(** C3: on the same input (with [sigma > 0], [T > 0], [N >= 1] and a
    recognised kind) the value returned by [find_amer_option_value] is at
    least the value returned by [find_euro_option_value], and after every
    number [k] of passes the American row dominates the European row entry
    by entry. *)
Theorem american_dominates_european
        (S0 r sigma T : R) (N : nat) (E : R) (kind : string) :
  0 < sigma -> 0 < T -> (1 <= N)%nat -> recognized kind = true ->
  (exists (euro amer : R) (exercise : bool),
      find_euro_option_value S0 r sigma T N E kind = Ok (Num euro)
      /\ find_amer_option_value S0 r sigma T N E kind = Ok (Num amer, exercise)
      /\ euro <= amer)
  /\ (forall k, (k <= N)%nat ->
        exists (euro_row amer_row : list R) (exercise : option bool),
          euro_row_after k S0 r sigma T N E kind = Ok (map Num euro_row)
          /\ amer_row_after k S0 r sigma T N E kind
             = Ok (map Num amer_row, exercise)
          /\ List.length euro_row = (N - k + 1)%nat
          /\ Forall2 Rle euro_row amer_row).
Proof.
  intros _ _ HN Hkind. split.
  - do 3 eexists. split; [now apply find_euro_ok|].
    split; [now apply find_amer_ok|]. apply euro_V_le_amer_V.
  - intros k Hk. do 3 eexists.
    split; [now apply euro_row_after_ok|].
    split; [now apply amer_row_after_ok|].
    split; [now rewrite length_map, length_seq|].
    apply Forall2_map_seq. intros j. apply euro_V_le_amer_V.
Qed.

Lemma american_dominates_european_witness :
  (exists (euro amer : R) (exercise : bool),
      find_euro_option_value 100 0 1 1 2 100 "put" = Ok (Num euro)
      /\ find_amer_option_value 100 0 1 1 2 100 "put" = Ok (Num amer, exercise)
      /\ euro <= amer)
  /\ (forall k, (k <= 2)%nat ->
        exists (euro_row amer_row : list R) (exercise : option bool),
          euro_row_after k 100 0 1 1 2 100 "put" = Ok (map Num euro_row)
          /\ amer_row_after k 100 0 1 1 2 100 "put"
             = Ok (map Num amer_row, exercise)
          /\ List.length euro_row = (2 - k + 1)%nat
          /\ Forall2 Rle euro_row amer_row).
Proof.
  apply (american_dominates_european 100 0 1 1 2 100 "put");
    [lra | lra | lia | reflexivity].
Defined.

(** C10: for a recognised kind, [sigma > 0], [T > 0] and [N >= 1], [payoff]
    returns a number [>= 0], every entry of every row held by the European
    and by the American loop is [>= 0], and so are the two returned
    prices. *)
Theorem option_values_nonnegative
        (S0 r sigma T : R) (N : nat) (E : R) (kind : string) :
  0 < sigma -> 0 < T -> (1 <= N)%nat -> recognized kind = true ->
  (forall S : R, exists x : R, payoff S E kind = Num x /\ 0 <= x)
  /\ (forall k, (k <= N)%nat ->
        exists (euro_row amer_row : list R) (exercise : option bool),
          euro_row_after k S0 r sigma T N E kind = Ok (map Num euro_row)
          /\ amer_row_after k S0 r sigma T N E kind
             = Ok (map Num amer_row, exercise)
          /\ List.length euro_row = (N - k + 1)%nat
          /\ List.length amer_row = (N - k + 1)%nat
          /\ Forall (Rle 0) euro_row
          /\ Forall (Rle 0) amer_row)
  /\ (exists (euro amer : R) (exercise : bool),
        find_euro_option_value S0 r sigma T N E kind = Ok (Num euro)
        /\ find_amer_option_value S0 r sigma T N E kind = Ok (Num amer, exercise)
        /\ 0 <= euro /\ 0 <= amer).
Proof.
  intros _ _ HN Hkind.
  assert (Ha : forall i j, 0 <= amer_V S0 r sigma T N E kind i j).
  { intros i j. eapply Rle_trans; [apply euro_V_nonneg | apply euro_V_le_amer_V]. }
  split; [|split].
  - intros S. eexists. split; [now apply payoff_recognized | apply intrinsic_nonneg].
  - intros k Hk. do 3 eexists.
    split; [now apply euro_row_after_ok|].
    split; [now apply amer_row_after_ok|].
    split; [now rewrite length_map, length_seq|].
    split; [now rewrite length_map, length_seq|].
    split; apply Forall_map_seq; intros j; [apply euro_V_nonneg | apply Ha].
  - do 3 eexists. split; [now apply find_euro_ok|].
    split; [now apply find_amer_ok|].
    split; [apply euro_V_nonneg | apply Ha].
Qed.

Lemma option_values_nonnegative_witness :
  (forall S : R, exists x : R, payoff S 120 "cash_or_nothing_call" = Num x /\ 0 <= x)
  /\ (forall k, (k <= 3)%nat ->
        exists (euro_row amer_row : list R) (exercise : option bool),
          euro_row_after k 100 0 1 1 3 120 "cash_or_nothing_call"
          = Ok (map Num euro_row)
          /\ amer_row_after k 100 0 1 1 3 120 "cash_or_nothing_call"
             = Ok (map Num amer_row, exercise)
          /\ List.length euro_row = (3 - k + 1)%nat
          /\ List.length amer_row = (3 - k + 1)%nat
          /\ Forall (Rle 0) euro_row
          /\ Forall (Rle 0) amer_row)
  /\ (exists (euro amer : R) (exercise : bool),
        find_euro_option_value 100 0 1 1 3 120 "cash_or_nothing_call"
        = Ok (Num euro)
        /\ find_amer_option_value 100 0 1 1 3 120 "cash_or_nothing_call"
           = Ok (Num amer, exercise)
        /\ 0 <= euro /\ 0 <= amer).
Proof.
  apply (option_values_nonnegative 100 0 1 1 3 120 "cash_or_nothing_call");
    [lra | lra | lia | reflexivity].
Defined.

(** ** The factors of [find_dt_u_d] *)

Lemma lattice_dt_pos (T : R) (N : nat) :
  0 < T -> (1 <= N)%nat -> 0 < lattice_dt T N.
Proof.
  intros HT HN. unfold lattice_dt. apply Rdiv_lt_0_compat; [exact HT|].
  apply lt_0_INR. lia.
Qed.

Lemma lattice_dt_zero (N : nat) : lattice_dt 0 N = 0.
Proof. unfold lattice_dt, Rdiv. apply Rmult_0_l. Qed.

(** The argument of the square root is never negative for [0 <= T]. *)
Lemma A_nonneg (sigma T : R) (N : nat) :
  0 <= T -> (1 <= N)%nat -> 0 <= lattice_A sigma T N.
Proof.
  intros HT HN. unfold lattice_A.
  assert (Hdt : 0 <= lattice_dt T N).
  { destruct HT as [HT|HT].
    - left. now apply lattice_dt_pos.
    - subst T. rewrite lattice_dt_zero. lra. }
  assert (Hx : 0 <= sigma ^ 2 * lattice_dt T N).
  { apply Rmult_le_pos; [apply pow2_ge_0 | exact Hdt]. }
  destruct Hx as [Hx|Hx].
  - pose proof (exp_increasing _ _ Hx) as H. rewrite exp_0 in H. lra.
  - rewrite <- Hx, exp_0. lra.
Qed.

Lemma A_pos (sigma T : R) (N : nat) :
  sigma <> 0 -> 0 < T -> (1 <= N)%nat -> 0 < lattice_A sigma T N.
Proof.
  intros Hs HT HN. unfold lattice_A.
  assert (Hx : 0 < sigma ^ 2 * lattice_dt T N).
  { apply Rmult_lt_0_compat; [|now apply lattice_dt_pos].
    rewrite <- Rsqr_pow2. now apply Rsqr_pos_lt. }
  pose proof (exp_increasing _ _ Hx) as H. rewrite exp_0 in H. lra.
Qed.

Lemma A_zero_horizon (sigma : R) (N : nat) : lattice_A sigma 0 N = 0.
Proof.
  unfold lattice_A. rewrite lattice_dt_zero, Rmult_0_r, exp_0. lra.
Qed.

Lemma B_zero_horizon (r : R) (N : nat) : lattice_B r 0 N = 1.
Proof.
  unfold lattice_B. now rewrite lattice_dt_zero, Rmult_0_r, exp_0.
Qed.

Lemma u_zero_horizon (r sigma : R) (N : nat) : lattice_u r sigma 0 N = 1.
Proof.
  unfold lattice_u. rewrite A_zero_horizon, B_zero_horizon, sqrt_0. lra.
Qed.

Lemma d_zero_horizon (r sigma : R) (N : nat) : lattice_d r sigma 0 N = 1.
Proof.
  unfold lattice_d. rewrite A_zero_horizon, B_zero_horizon, sqrt_0. lra.
Qed.

Lemma growth_is_B (r T : R) (N : nat) : exp (r * T / INR N) = lattice_B r T N.
Proof.
  unfold lattice_B, lattice_dt, Rdiv. now rewrite Rmult_assoc.
Qed.

(** The mean of the two factors is the risk-free growth of one step. *)
Lemma mean_of_factors (r sigma T : R) (N : nat) :
  0.5 * (lattice_u r sigma T N + lattice_d r sigma T N) = lattice_B r T N.
Proof. unfold lattice_u, lattice_d. lra. Qed.

(** C6, as the code has it: with [sigma > 0] and [N >= 1] the factors
    satisfy [d < exp(r*T/N) < u] for [T > 0]; for [T = 0] the three
    coincide. *)
Theorem lattice_factors_bound (r sigma T : R) (N : nat) :
  0 < sigma -> 0 <= T -> (1 <= N)%nat ->
  exists dt u d : R,
    find_dt_u_d r sigma T N = Ok (dt, u, d)
    /\ (0 < T -> d < exp (r * T / INR N) < u)
    /\ (T = 0 -> d = exp (r * T / INR N) /\ u = exp (r * T / INR N)).
Proof.
  intros Hs HT HN.
  exists (lattice_dt T N), (lattice_u r sigma T N), (lattice_d r sigma T N).
  split; [now apply find_dt_u_d_ok|]. rewrite growth_is_B. split.
  - intros HT'. unfold lattice_u, lattice_d.
    assert (HB : 0 < lattice_B r T N) by apply exp_pos.
    assert (HA : 0 < sqrt (lattice_A sigma T N)).
    { apply sqrt_lt_R0. apply A_pos; [lra | exact HT' | exact HN]. }
    split; nra.
  - intros ->. now rewrite d_zero_horizon, u_zero_horizon, B_zero_horizon.
Qed.

Lemma lattice_factors_bound_witness :
  exists dt u d : R,
    find_dt_u_d (4 / 100) (2 / 10) 1 20 = Ok (dt, u, d)
    /\ (0 < 1 -> d < exp (4 / 100 * 1 / INR 20) < u)
    /\ (1 = 0 -> d = exp (4 / 100 * 1 / INR 20) /\ u = exp (4 / 100 * 1 / INR 20)).
Proof.
  apply (lattice_factors_bound (4 / 100) (2 / 10) 1 20); [lra | lra | lia].
Defined.

(** C6 as stated fails at [T = 0]: there [d = exp(r*T/N) = u]. *)
Lemma lattice_factors_bound_not_strict_at_zero_horizon :
  0 < 1 /\ 0 <= 0 /\ (1 <= 1)%nat
  /\ exists dt u d : R,
       find_dt_u_d 0 1 0 1 = Ok (dt, u, d)
       /\ ~ (d < exp (0 * 0 / INR 1) < u).
Proof.
  split; [lra|]. split; [lra|]. split; [lia|].
  exists (lattice_dt 0 1), (lattice_u 0 1 0 1), (lattice_d 0 1 0 1).
  split; [apply find_dt_u_d_ok; lia|].
  rewrite growth_is_B, d_zero_horizon, u_zero_horizon, B_zero_horizon. lra.
Qed.

(** ** Put-call parity on the lattice *)

(** The literal [0.5] of the scripts. *)
Lemma half_is_inv_2 : 0.5 = / 2.
Proof. lra. Qed.

Lemma hold_node_minus (discount : R) (f g : nat -> R) (k j : nat) :
  hold_node discount (fun i => f i - g i) k j
  = hold_node discount f k j - hold_node discount g k j.
Proof.
  revert j. induction k as [|k IH]; intros j; cbn [hold_node].
  - reflexivity.
  - rewrite !IH. lra.
Qed.

Lemma hold_node_ext (discount : R) (f g : nat -> R) (k j : nat) :
  (forall i, f i = g i) ->
  hold_node discount f k j = hold_node discount g k j.
Proof.
  intros H. revert j. induction k as [|k IH]; intros j; cbn [hold_node].
  - apply H.
  - now rewrite !IH.
Qed.

Lemma intrinsic_call_minus_put (S E : R) :
  intrinsic S E "call" - intrinsic S E "put" = S - E.
Proof.
  unfold intrinsic, payoff. cbn [String.eqb Ascii.eqb Bool.eqb andb].
  destruct (Rgt_dec (S - E) 0), (Rgt_dec (E - S) 0); lra.
Qed.

(** Holding a forward: when one step of discounting undoes one step of mean
    growth, the leaves [S - E] roll back to [S - E * discount^k]. *)
Lemma hold_node_forward (discount S0 u d E : R) (N k j : nat) :
  discount * (0.5 * (u + d)) = 1 ->
  (k <= N)%nat -> (j <= N - k)%nat ->
  hold_node discount (fun i => price S0 u d N i - E) k j
  = price S0 u d (N - k) j - E * discount ^ k.
Proof.
  intros Hone. revert j. induction k as [|k IH]; intros j Hk Hj; cbn [hold_node].
  - rewrite Nat.sub_0_r. simpl. lra.
  - rewrite !IH by lia. unfold price.
    replace (N - k - j)%nat with (S (N - S k - j)) by lia.
    replace (N - k - S j)%nat with (N - S k - j)%nat by lia.
    set (m := (N - S k - j)%nat). simpl pow.
    transitivity (S0 * u ^ j * d ^ m * (discount * (0.5 * (u + d)))
                  - E * (discount * discount ^ k)).
    + rewrite half_is_inv_2. field.
    + rewrite Hone. ring.
Qed.

Lemma exp_pow_nat (x : R) (n : nat) : exp x ^ n = exp (INR n * x).
Proof.
  induction n as [|n IH].
  - simpl. now rewrite Rmult_0_l, exp_0.
  - rewrite S_INR. cbn [pow]. rewrite IH, <- exp_plus. f_equal. ring.
Qed.

Lemma discount_undoes_growth (r sigma T : R) (N : nat) :
  exp (- r * lattice_dt T N)
  * (0.5 * (lattice_u r sigma T N + lattice_d r sigma T N)) = 1.
Proof.
  rewrite mean_of_factors. unfold lattice_B.
  rewrite <- exp_plus. rewrite <- exp_0. f_equal. ring.
Qed.

Lemma discount_over_horizon (r T : R) (N : nat) :
  (1 <= N)%nat -> exp (- r * lattice_dt T N) ^ N = exp (- r * T).
Proof.
  intros HN. rewrite exp_pow_nat. f_equal. unfold lattice_dt.
  assert (INR N <> 0) by (apply not_0_INR; lia). field. assumption.
Qed.

Lemma euro_call_minus_put (S0 r sigma T : R) (N : nat) (E : R) :
  (1 <= N)%nat ->
  euro_V S0 r sigma T N E "call" 0 0 - euro_V S0 r sigma T N E "put" 0 0
  = S0 - E * exp (- r * T).
Proof.
  intros HN. unfold euro_V. rewrite Nat.sub_0_r.
  rewrite <- hold_node_minus.
  erewrite hold_node_ext by (intros i; apply intrinsic_call_minus_put).
  rewrite hold_node_forward by (try lia; apply discount_undoes_growth).
  rewrite discount_over_horizon by exact HN.
  unfold price. rewrite Nat.sub_diag. simpl. lra.
Qed.

(** C5: for matched European call and put on the same
    [(S0 > 0, E, r, sigma > 0, T > 0, N >= 1)] the two lattice prices satisfy
    put-call parity.  In exact arithmetic the relation
    [call - put = S0 - E*exp(-r*T)] holds at every [N >= 1], so the gap is
    below every tolerance from [N = 1] on. *)
Theorem put_call_parity (S0 r sigma T E : R) :
  0 < S0 -> 0 < sigma -> 0 < T ->
  (forall N, (1 <= N)%nat ->
     exists call put : R,
       find_euro_option_value S0 r sigma T N E "call" = Ok (Num call)
       /\ find_euro_option_value S0 r sigma T N E "put" = Ok (Num put)
       /\ call - put = S0 - E * exp (- r * T))
  /\ (forall eps, 0 < eps ->
        exists N0, forall N, (N0 <= N)%nat ->
          exists call put : R,
            find_euro_option_value S0 r sigma T N E "call" = Ok (Num call)
            /\ find_euro_option_value S0 r sigma T N E "put" = Ok (Num put)
            /\ Rabs (call - put - (S0 - E * exp (- r * T))) < eps).
Proof.
  intros _ _ _.
  assert (Hexact : forall N, (1 <= N)%nat ->
     exists call put : R,
       find_euro_option_value S0 r sigma T N E "call" = Ok (Num call)
       /\ find_euro_option_value S0 r sigma T N E "put" = Ok (Num put)
       /\ call - put = S0 - E * exp (- r * T)).
  { intros N HN. do 2 eexists.
    split; [now apply find_euro_ok|]. split; [now apply find_euro_ok|].
    now apply euro_call_minus_put. }
  split; [exact Hexact|].
  intros eps Heps. exists 1%nat. intros N HN.
  destruct (Hexact N HN) as (call & put & Hc & Hp & Heq).
  exists call, put. split; [exact Hc|]. split; [exact Hp|].
  rewrite Heq, Rminus_diag, Rabs_R0. exact Heps.
Qed.

Lemma put_call_parity_witness :
  (forall N, (1 <= N)%nat ->
     exists call put : R,
       find_euro_option_value 100 (4 / 100) (2 / 10) 1 N 120 "call" = Ok (Num call)
       /\ find_euro_option_value 100 (4 / 100) (2 / 10) 1 N 120 "put" = Ok (Num put)
       /\ call - put = 100 - 120 * exp (- (4 / 100) * 1))
  /\ (forall eps, 0 < eps ->
        exists N0, forall N, (N0 <= N)%nat ->
          exists call put : R,
            find_euro_option_value 100 (4 / 100) (2 / 10) 1 N 120 "call"
            = Ok (Num call)
            /\ find_euro_option_value 100 (4 / 100) (2 / 10) 1 N 120 "put"
               = Ok (Num put)
            /\ Rabs (call - put - (100 - 120 * exp (- (4 / 100) * 1))) < eps).
Proof.
  apply (put_call_parity 100 (4 / 100) (2 / 10) 1 120); lra.
Defined.

(** ** Degenerate inputs *)

Lemma hold_node_const (leaf : nat -> R) (c : R) (k j : nat) :
  (forall i, leaf i = c) -> hold_node 1 leaf k j = c.
Proof.
  intros H. revert j. induction k as [|k IH]; intros j; cbn [hold_node].
  - apply H.
  - rewrite !IH. lra.
Qed.

Lemma stop_node_const (leaf : nat -> R) (exv : nat -> nat -> R) (c : R)
      (k j : nat) :
  (forall i, leaf i = c) -> (forall k' i, exv k' i = c) ->
  stop_node 1 leaf exv k j = c.
Proof.
  intros Hl He. revert j. induction k as [|k IH]; intros j; cbn [stop_node].
  - apply Hl.
  - rewrite !IH, He. replace (1 * 0.5 * (c + c)) with c by lra.
    apply Rmax_left. lra.
Qed.

Lemma price_flat (S0 : R) (i j : nat) : price S0 1 1 i j = S0.
Proof. unfold price. rewrite !pow1. lra. Qed.

Lemma discount_zero_horizon (r : R) (N : nat) : exp (- r * lattice_dt 0 N) = 1.
Proof. now rewrite lattice_dt_zero, Rmult_0_r, exp_0. Qed.

Lemma euro_V_zero_horizon (S0 r sigma : R) (N : nat) (E : R) (kind : string)
      (i j : nat) :
  euro_V S0 r sigma 0 N E kind i j = intrinsic S0 E kind.
Proof.
  unfold euro_V. rewrite discount_zero_horizon, u_zero_horizon, d_zero_horizon.
  apply hold_node_const. intros. now rewrite price_flat.
Qed.

Lemma amer_V_zero_horizon (S0 r sigma : R) (N : nat) (E : R) (kind : string)
      (i j : nat) :
  amer_V S0 r sigma 0 N E kind i j = intrinsic S0 E kind.
Proof.
  unfold amer_V. rewrite discount_zero_horizon, u_zero_horizon, d_zero_horizon.
  apply stop_node_const; intros; now rewrite price_flat.
Qed.

Lemma amer_exercise_zero_horizon (S0 r sigma : R) (N : nat) (E : R)
      (kind : string) (i j : nat) :
  amer_exercise S0 r sigma 0 N E kind i j = false.
Proof.
  unfold amer_exercise, amer_hold.
  rewrite !amer_V_zero_horizon, discount_zero_horizon,
    u_zero_horizon, d_zero_horizon, price_flat.
  destruct (Rgt_dec _ _) as [H|_]; [lra | reflexivity].
Qed.

Lemma find_euro_zero_steps (S0 r sigma T E : R) (kind : string) :
  find_euro_option_value S0 r sigma T 0 E kind = Raise ZeroDivisionError.
Proof.
  unfold find_euro_option_value. now rewrite find_dt_u_d_zero_steps.
Qed.

Lemma find_amer_zero_steps (S0 r sigma T E : R) (kind : string) :
  find_amer_option_value S0 r sigma T 0 E kind = Raise ZeroDivisionError.
Proof.
  unfold find_amer_option_value. now rewrite find_dt_u_d_zero_steps.
Qed.

(** C7, as the code has it: with [T = 0], [N >= 1] and a recognised kind
    both pricers return [payoff(S0, E, kind)] (the American one with the
    flag [False]); with [steps = 0] neither returns a price, the division
    [T/steps] of [find_dt_u_d] raises [ZeroDivisionError]. *)
Theorem degenerate_inputs
        (S0 r sigma : R) (N : nat) (E : R) (kind : string) :
  (1 <= N)%nat -> recognized kind = true ->
  find_euro_option_value S0 r sigma 0 N E kind = Ok (payoff S0 E kind)
  /\ find_amer_option_value S0 r sigma 0 N E kind = Ok (payoff S0 E kind, false)
  /\ (forall T : R,
        find_euro_option_value S0 r sigma T 0 E kind = Raise ZeroDivisionError
        /\ find_amer_option_value S0 r sigma T 0 E kind
           = Raise ZeroDivisionError).
Proof.
  intros HN Hkind. rewrite (payoff_recognized S0 E kind Hkind).
  split; [|split].
  - rewrite find_euro_ok by assumption. now rewrite euro_V_zero_horizon.
  - rewrite find_amer_ok by assumption.
    now rewrite amer_V_zero_horizon, amer_exercise_zero_horizon.
  - intros T. split; [apply find_euro_zero_steps | apply find_amer_zero_steps].
Qed.

Lemma degenerate_inputs_witness :
  find_euro_option_value 100 (4 / 100) (2 / 10) 0 3 120 "put"
  = Ok (payoff 100 120 "put")
  /\ find_amer_option_value 100 (4 / 100) (2 / 10) 0 3 120 "put"
     = Ok (payoff 100 120 "put", false)
  /\ (forall T : R,
        find_euro_option_value 100 (4 / 100) (2 / 10) T 0 120 "put"
        = Raise ZeroDivisionError
        /\ find_amer_option_value 100 (4 / 100) (2 / 10) T 0 120 "put"
           = Raise ZeroDivisionError).
Proof.
  apply (degenerate_inputs 100 (4 / 100) (2 / 10) 3 120 "put");
    [lia | reflexivity].
Defined.

(** C7 as stated fails at [steps = 0]: the call raises instead of
    returning [payoff(S0, E, kind)]. *)
Lemma zero_steps_is_not_short_circuited :
  find_euro_option_value 100 (4 / 100) (2 / 10) 1 0 120 "put"
  = Raise ZeroDivisionError
  /\ find_euro_option_value 100 (4 / 100) (2 / 10) 1 0 120 "put"
     <> Ok (payoff 100 120 "put")
  /\ find_amer_option_value 100 (4 / 100) (2 / 10) 1 0 120 "put"
     = Raise ZeroDivisionError
  /\ (forall exercise : bool,
        find_amer_option_value 100 (4 / 100) (2 / 10) 1 0 120 "put"
        <> Ok (payoff 100 120 "put", exercise)).
Proof.
  rewrite find_euro_zero_steps, find_amer_zero_steps.
  repeat split; try discriminate.
Qed.

(** ** Inputs the specification calls invalid *)

Lemma lattice_A_even (sigma T : R) (N : nat) :
  lattice_A (- sigma) T N = lattice_A sigma T N.
Proof.
  unfold lattice_A. f_equal. f_equal. f_equal. ring.
Qed.

Lemma A_zero_sigma (T : R) (N : nat) : lattice_A 0 T N = 0.
Proof.
  unfold lattice_A. replace (0 ^ 2 * lattice_dt T N) with 0 by ring.
  rewrite exp_0. lra.
Qed.

Lemma B_zero_rate (T : R) (N : nat) : lattice_B 0 T N = 1.
Proof. unfold lattice_B. now rewrite Rmult_0_l, exp_0. Qed.

Lemma euro_V_zero_rate_zero_sigma (S0 T : R) (N : nat) (E : R) (kind : string)
      (i j : nat) :
  euro_V S0 0 0 T N E kind i j = intrinsic S0 E kind.
Proof.
  unfold euro_V, lattice_u, lattice_d.
  rewrite A_zero_sigma, B_zero_rate, sqrt_0.
  replace (- 0 * lattice_dt T N) with 0 by ring. rewrite exp_0.
  replace (1 * (1 + 0)) with 1 by ring. replace (1 * (1 - 0)) with 1 by ring.
  apply hold_node_const. intros. now rewrite price_flat.
Qed.

Lemma payoff_unrecognized (S E : R) (kind : string) :
  recognized kind = false -> payoff S E kind = PyNone.
Proof.
  unfold recognized, payoff. intros H.
  destruct (kind =? "call")%string; [discriminate H|].
  destruct (kind =? "put")%string; [discriminate H|].
  destruct (kind =? "cash_or_nothing_call")%string; [discriminate H|].
  destruct (kind =? "cash_or_nothing_put")%string; [discriminate H|].
  reflexivity.
Qed.

(** C8, as the code has it: nothing is validated.  For [sigma <= 0] (with
    [0 <= T], [N >= 1]) [find_dt_u_d] returns the factors it computes from
    [sigma**2], the same as for [-sigma]; for an [option_type] outside the
    four kinds [payoff] returns [None] and raises nothing. *)
Theorem invalid_inputs_are_not_rejected
        (r sigma T : R) (N : nat) (S E : R) (kind : string) :
  sigma <= 0 -> 0 <= T -> (1 <= N)%nat -> recognized kind = false ->
  (exists dt u d : R,
      find_dt_u_d r sigma T N = Ok (dt, u, d)
      /\ dt = T / INR N
      /\ 0 <= exp (sigma ^ 2 * dt) - 1
      /\ u = exp (r * dt) * (1 + sqrt (exp (sigma ^ 2 * dt) - 1))
      /\ d = exp (r * dt) * (1 - sqrt (exp (sigma ^ 2 * dt) - 1))
      /\ find_dt_u_d r (- sigma) T N = Ok (dt, u, d))
  /\ payoff S E kind = PyNone.
Proof.
  intros _ HT HN Hkind. split; [|now apply payoff_unrecognized].
  exists (lattice_dt T N), (lattice_u r sigma T N), (lattice_d r sigma T N).
  split; [now apply find_dt_u_d_ok|]. split; [reflexivity|].
  split; [now apply A_nonneg|]. split; [reflexivity|]. split; [reflexivity|].
  rewrite find_dt_u_d_ok by exact HN.
  unfold lattice_u, lattice_d. now rewrite lattice_A_even.
Qed.

Lemma invalid_inputs_are_not_rejected_witness :
  (exists dt u d : R,
      find_dt_u_d (4 / 100) (- (2 / 10)) 1 20 = Ok (dt, u, d)
      /\ dt = 1 / INR 20
      /\ 0 <= exp ((- (2 / 10)) ^ 2 * dt) - 1
      /\ u = exp (4 / 100 * dt) * (1 + sqrt (exp ((- (2 / 10)) ^ 2 * dt) - 1))
      /\ d = exp (4 / 100 * dt) * (1 - sqrt (exp ((- (2 / 10)) ^ 2 * dt) - 1))
      /\ find_dt_u_d (4 / 100) (- - (2 / 10)) 1 20 = Ok (dt, u, d))
  /\ payoff 100 120 "straddle" = PyNone.
Proof.
  apply (invalid_inputs_are_not_rejected (4 / 100) (- (2 / 10)) 1 20 100 120
                                         "straddle");
    [lra | lra | lia | reflexivity].
Defined.

(** C8 as stated fails: with [sigma = 0] a price comes back, and an unknown
    kind makes [payoff] return [None]; neither is an error result. *)
Lemma zero_sigma_and_unknown_kind_pass :
  find_euro_option_value 100 0 0 1 1 90 "call" = Ok (Num 10)
  /\ (exists factors, find_dt_u_d 0 (- 1) 1 1 = Ok factors)
  /\ payoff 100 90 "straddle" = PyNone.
Proof.
  split; [|split].
  - rewrite find_euro_ok by (try lia; reflexivity).
    rewrite euro_V_zero_rate_zero_sigma.
    unfold intrinsic, payoff. cbn [String.eqb Ascii.eqb Bool.eqb andb].
    destruct (Rgt_dec (100 - 90) 0) as [_|H]; [|lra]. do 2 f_equal. lra.
  - eexists. apply find_dt_u_d_ok. lia.
  - reflexivity.
Qed.

(** A pricer handed an unknown kind does stop, but late and with a
    [TypeError]: the terminal row is all [None] and the first addition of
    the backward pass fails. *)
Lemma euro_step_on_None (discount : R) (n : nat) :
  euro_step discount (map (fun _ : nat => PyNone) (seq 0 (S (S n))))
  = Raise TypeError.
Proof.
  unfold euro_step, range. rewrite length_map, length_seq.
  pose proof (getitem_map_seq (fun _ : nat => PyNone) (S (S n)) 0) as H0.
  pose proof (getitem_map_seq (fun _ : nat => PyNone) (S (S n)) 1) as H1.
  set (row := map (fun _ : nat => PyNone) (seq 0 (S (S n)))) in *.
  cbn [Nat.sub seq for_each].
  rewrite H0 by lia. cbn [bind]. change (Z.of_nat 0 + 1)%Z with (Z.of_nat 1).
  rewrite H1 by lia. reflexivity.
Qed.

Lemma amer_step_on_None (discount E : R) (kind : string) (S0 u d : R)
      (n : nat) (exercise : option bool) :
  amer_step discount E kind (tree_of S0 u d (S n)) (Z.of_nat (S n + 1)) 0
            (map (fun _ : nat => PyNone) (seq 0 (S (S n))), exercise)
  = Raise TypeError.
Proof.
  unfold amer_step, range.
  replace (Z.of_nat (S n + 1) - 2 - Z.of_nat 0)%Z with (Z.of_nat n) by lia.
  rewrite tree_of_level by lia. cbn [bind].
  rewrite length_map, length_seq.
  pose proof (getitem_map_seq (fun _ : nat => PyNone) (S (S n)) 0) as H0.
  pose proof (getitem_map_seq (fun _ : nat => PyNone) (S (S n)) 1) as H1.
  set (row := map (fun _ : nat => PyNone) (seq 0 (S (S n)))) in *.
  cbn [Nat.sub seq for_each].
  rewrite H0 by lia. cbn [bind]. change (Z.of_nat 0 + 1)%Z with (Z.of_nat 1).
  rewrite H1 by lia. reflexivity.
Qed.

Lemma terminal_row_on_unknown_kind (S0 u d E : R) (kind : string) (N : nat) :
  recognized kind = false ->
  for_each (fun value payoff_row => Ok (payoff_row ++ [payoff value E kind]))
           (map (price S0 u d N) (seq 0 (N + 1))) []
  = Ok (map (fun _ : nat => PyNone) (seq 0 (N + 1))).
Proof.
  intros Hk. rewrite for_each_append. simpl. f_equal.
  rewrite map_map. apply map_ext. intros j. now apply payoff_unrecognized.
Qed.

Lemma unknown_kind_raises_TypeError
      (S0 r sigma T : R) (N : nat) (E : R) (kind : string) :
  (1 <= N)%nat -> recognized kind = false ->
  find_euro_option_value S0 r sigma T N E kind = Raise TypeError
  /\ find_amer_option_value S0 r sigma T N E kind = Raise TypeError.
Proof.
  intros HN Hkind. split.
  - unfold find_euro_option_value.
    rewrite find_dt_u_d_ok, produce_tree_ok by exact HN. cbn [bind].
    rewrite final_row_ok. cbn [bind].
    rewrite terminal_row_on_unknown_kind by exact Hkind. cbn [bind].
    destruct N as [|n]; [lia|].
    replace (S n + 1)%nat with (S (S n)) by lia.
    set (row := map (fun _ : nat => PyNone) (seq 0 (S (S n)))).
    unfold range. cbn [seq for_each]. subst row.
    now rewrite euro_step_on_None.
  - unfold find_amer_option_value.
    rewrite find_dt_u_d_ok, produce_tree_ok by exact HN. cbn [bind].
    rewrite final_row_ok. cbn [bind].
    rewrite terminal_row_on_unknown_kind by exact Hkind. cbn [bind].
    rewrite tree_of_length.
    destruct N as [|n]; [lia|].
    replace (map (fun _ : nat => PyNone) (seq 0 (S n + 1)))
      with (map (fun _ : nat => PyNone) (seq 0 (S (S n))))
      by (f_equal; f_equal; lia).
    set (row := map (fun _ : nat => PyNone) (seq 0 (S (S n)))).
    unfold range. cbn [seq for_each]. subst row.
    now rewrite amer_step_on_None.
Qed.

(** ** The finite-difference stepper *)

Import BlackScholes.

Lemma py_div_ok (a b : R) : b <> 0 -> py_div a b = Ok (a / b).
Proof.
  intros H. unfold py_div. destruct (Req_dec_T b 0); [contradiction | reflexivity].
Qed.

(** Runs a script on literal lists: subscripts and loops are computed, the
    real arithmetic is left to [field]. *)
Ltac run_script :=
  repeat (cbv - [IZR Q2R Rdiv Rminus Rplus Rmult Ropp Rinv py_div];
          rewrite ?py_div_ok by lra).

Ltac same_numbers :=
  f_equal; repeat (apply f_equal2; [first [lra | field; lra] |]); reflexivity.

Lemma find_dVdS_on_squares :
  find_dVdS [1; 4; 9; 16; 25] [1; 2; 3; 4; 5] = Ok [3; 5; 7; 9; 11].
Proof. unfold find_dVdS. run_script. same_numbers. Qed.

Lemma find_d2VdS2_on_squares :
  find_d2VdS2 [1; 4; 9; 16; 25] [1; 2; 3; 4; 5] = Ok [2; 2; 2; 2; 2].
Proof. unfold find_d2VdS2. run_script. same_numbers. Qed.

Lemma find_dVdt_on_squares :
  find_dVdt [1; 4; 9; 16; 25] [1; 2; 3; 4; 5] 0 1 = Ok [-1; -2; -3; -4; -5].
Proof.
  unfold find_dVdt.
  rewrite find_dVdS_on_squares, find_d2VdS2_on_squares.
  run_script. same_numbers.
Qed.

Lemma find_d2VdS2_on_wide_grid :
  find_d2VdS2 [0; 4; 16; 36; 64] [0; 2; 4; 6; 8] = Ok [4; 4; 4; 4; 4].
Proof. unfold find_d2VdS2. run_script. same_numbers. Qed.

(** What [find_dVdt] computes from the two derivative lists, entry by
    entry: the last term has [sigma*sigma*S], with [S] to the first power. *)
Lemma find_dVdt_entries (V_list S_list dVdS_list d2VdS2_list : list R)
      (r sigma : R) :
  find_dVdS V_list S_list = Ok dVdS_list ->
  find_d2VdS2 V_list S_list = Ok d2VdS2_list ->
  List.length S_list = List.length V_list ->
  List.length dVdS_list = List.length V_list ->
  List.length d2VdS2_list = List.length V_list ->
  find_dVdt V_list S_list r sigma
  = Ok (map (fun i => 0 + r * nth i V_list 0
                      - r * nth i S_list 0 * nth i dVdS_list 0
                      - 0.5 * sigma * sigma * nth i S_list 0
                        * nth i d2VdS2_list 0)
            (seq 0 (List.length V_list))).
Proof.
  intros H1 H2 HS Hd1 Hd2. unfold find_dVdt, range.
  rewrite H1, H2. cbn [bind].
  apply (for_each_append_ok _ _ _ []).
  intros i acc Hi. apply in_seq in Hi.
  rewrite (getitem_nat V_list i (nth i V_list 0))
    by (apply nth_error_nth'; lia).
  rewrite (getitem_nat S_list i (nth i S_list 0))
    by (apply nth_error_nth'; lia).
  rewrite (getitem_nat dVdS_list i (nth i dVdS_list 0))
    by (apply nth_error_nth'; lia).
  rewrite (getitem_nat d2VdS2_list i (nth i d2VdS2_list 0))
    by (apply nth_error_nth'; lia).
  reflexivity.
Qed.

(** C4: the stepper is meant to return
    [r*V[i] - r*S[i]*dVdS[i] - 0.5*sigma^2*S[i]^2*d2VdS2[i]].  On the grid
    [S = 1..5] with [V = S^2], [r = 0], [sigma = 1] it returns [-S[i]]
    where that formula, fed the script's own derivative lists, gives
    [-S[i]^2]: the last term carries [S] once.  The second list is the
    second difference over the spacing, not over its square (on a grid of
    spacing 2 the script gives 4 for [V = S^2]), and the first list is the
    forward difference. *)
Theorem find_dVdt_carries_S_once :
  find_dVdS [1; 4; 9; 16; 25] [1; 2; 3; 4; 5] = Ok [3; 5; 7; 9; 11]
  /\ find_d2VdS2 [1; 4; 9; 16; 25] [1; 2; 3; 4; 5] = Ok [2; 2; 2; 2; 2]
  /\ find_dVdt [1; 4; 9; 16; 25] [1; 2; 3; 4; 5] 0 1 = Ok [-1; -2; -3; -4; -5]
  /\ 0 * 4 - 0 * 2 * 5 - 0.5 * 1 ^ 2 * 2 ^ 2 * 2 = -4
  /\ find_d2VdS2 [0; 4; 16; 36; 64] [0; 2; 4; 6; 8] = Ok [4; 4; 4; 4; 4].
Proof.
  split; [apply find_dVdS_on_squares|].
  split; [apply find_d2VdS2_on_squares|].
  split; [apply find_dVdt_on_squares|].
  split; [lra | apply find_d2VdS2_on_wide_grid].
Qed.

(** * Further properties of the scripts *)

Import BinomialCall GeomStockPrice MonteCarloOptions Closed.

(** ** The first script prices what the second prices as a "call" *)

Lemma euro_call_is_intrinsic (S E : R) : euro_call S E = intrinsic S E "call".
Proof.
  unfold euro_call, intrinsic, Binomial.payoff.
  cbn [String.eqb Ascii.eqb Bool.eqb andb].
  destruct (Rgt_dec S E), (Rgt_dec (S - E) 0); try reflexivity; lra.
Qed.

Lemma call_pass_row (discount : R) (f : nat -> R) (n : nat) :
  for_each
    (fun j new_row =>
       a <- getitem (map f (seq 0 (S n))) (Z.of_nat j) ;;
       b <- getitem (map f (seq 0 (S n))) (Z.of_nat j + 1) ;;
       Ok (new_row ++ [discount * 0.5 * (a + b)]))
    (range (List.length (map f (seq 0 (S n))) - 1)) []
  = Ok (map (fun j => discount * 0.5 * (f j + f (S j))) (seq 0 n)).
Proof.
  unfold range. rewrite length_map, length_seq.
  replace (S n - 1)%nat with n by lia.
  apply (for_each_append_ok _ _ _ []).
  intros j acc Hj. apply in_seq in Hj.
  rewrite getitem_map_seq by lia.
  replace (Z.of_nat j + 1)%Z with (Z.of_nat (S j)) by lia.
  rewrite getitem_map_seq by lia. reflexivity.
Qed.

Lemma call_loop_rows (discount : R) (leaf : nat -> R) (N k : nat) :
  (k <= N)%nat ->
  for_each
    (fun (_ : nat) (payoff_row : list R) =>
       for_each
         (fun j new_row =>
            a <- getitem payoff_row (Z.of_nat j) ;;
            b <- getitem payoff_row (Z.of_nat j + 1) ;;
            Ok (new_row ++ [discount * 0.5 * (a + b)]))
         (range (List.length payoff_row - 1)) [])
    (range k) (map leaf (seq 0 (N + 1)))
  = Ok (map (hold_node discount leaf k) (seq 0 (N - k + 1))).
Proof.
  induction k as [|k IH]; intros Hk.
  - simpl. now rewrite Nat.sub_0_r.
  - replace (range (S k)) with (range k ++ [k])
      by (unfold range; now rewrite seq_S).
    rewrite for_each_app, IH by lia. cbn [for_each bind].
    replace (N - k + 1)%nat with (S (N - S k + 1)) by lia.
    rewrite call_pass_row. reflexivity.
Qed.

Lemma euro_call_value_ok (S0 r sigma T : R) (N : nat) (E : R) :
  (1 <= N)%nat ->
  euro_call_value S0 r sigma T N E = Ok (euro_V S0 r sigma T N E "call" 0 0).
Proof.
  intros HN. unfold euro_call_value.
  rewrite find_dt_u_d_ok, produce_tree_ok by exact HN. cbn [bind].
  rewrite final_row_ok. cbn [bind].
  rewrite for_each_append. cbn [bind app].
  rewrite map_map.
  rewrite (map_ext _ (fun j => intrinsic (price S0 (lattice_u r sigma T N)
                                                (lattice_d r sigma T N) N j)
                                         E "call"))
    by (intros; apply euro_call_is_intrinsic).
  rewrite call_loop_rows by lia. cbn [bind].
  rewrite Nat.sub_diag. unfold euro_V. rewrite Nat.sub_0_r. reflexivity.
Qed.

(** X1: for [0 <= T] and every other input, [steps = 0] included, the
    second script's [find_euro_option_value] with kind ["call"] returns
    what the first script's [euro_call_value] returns, and raises when it
    raises. *)
Theorem euro_call_value_agrees (S0 r sigma T : R) (N : nat) (E : R) :
  0 <= T ->
  find_euro_option_value S0 r sigma T N E "call"
  = (call_value <- euro_call_value S0 r sigma T N E ;; Ok (Num call_value)).
Proof.
  intros _. destruct N as [|n].
  - rewrite find_euro_zero_steps. unfold euro_call_value.
    now rewrite find_dt_u_d_zero_steps.
  - rewrite find_euro_ok by (try lia; reflexivity).
    rewrite euro_call_value_ok by lia. reflexivity.
Qed.

Lemma euro_call_value_agrees_witness :
  find_euro_option_value 100 (4 / 100) (2 / 10) 10 20 120 "call"
  = (call_value <- euro_call_value 100 (4 / 100) (2 / 10) 10 20 120 ;;
     Ok (Num call_value)).
Proof.
  apply (euro_call_value_agrees 100 (4 / 100) (2 / 10) 10 20 120). lra.
Defined.

(** ** Shape of the price tree *)

Lemma nth_map_seq {A : Type} (f : nat -> A) (n i : nat) (dflt : A) :
  (i < n)%nat -> nth i (map f (seq 0 n)) dflt = f i.
Proof.
  intros H. rewrite (nth_indep _ dflt (f 0%nat))
    by now rewrite length_map, length_seq.
  rewrite map_nth, seq_nth by exact H. reflexivity.
Qed.

Lemma node_tree_of (S0 u d : R) (N i j : nat) :
  (i <= N)%nat -> (j <= i)%nat ->
  node (tree_of S0 u d N) i j = price S0 u d i j.
Proof.
  intros Hi Hj. unfold node, tree_of.
  rewrite nth_map_seq by lia. rewrite nth_map_seq by lia. reflexivity.
Qed.

(** X2: for [0 <= T] and [steps >= 1] the tree has [steps + 1] levels, level [i] has
    [i + 1] prices, the root is [S_0], and the tree recombines: the two
    successors of a node are [u] times and [d] times its price. *)
Theorem produce_tree_recombines (S0 r sigma T : R) (N : nat) :
  0 <= T -> (1 <= N)%nat ->
  exists (dt u d : R) (tree : list (list R)),
    find_dt_u_d r sigma T N = Ok (dt, u, d)
    /\ produce_tree S0 r sigma T N = Ok tree
    /\ List.length tree = (N + 1)%nat
    /\ (forall i, (i <= N)%nat -> List.length (nth i tree []) = (i + 1)%nat)
    /\ node tree 0 0 = S0
    /\ (forall i j, (i < N)%nat -> (j <= i)%nat ->
          node tree (i + 1) (j + 1) = u * node tree i j
          /\ node tree (i + 1) j = d * node tree i j).
Proof.
  intros _ HN.
  exists (lattice_dt T N), (lattice_u r sigma T N), (lattice_d r sigma T N),
    (tree_of S0 (lattice_u r sigma T N) (lattice_d r sigma T N) N).
  split; [now apply find_dt_u_d_ok|].
  split; [now apply produce_tree_ok|].
  split; [apply tree_of_length|].
  split; [|split].
  - intros i Hi. unfold tree_of. rewrite nth_map_seq by lia.
    now rewrite length_map, length_seq.
  - rewrite node_tree_of by lia. unfold price. simpl. lra.
  - intros i j Hi Hj. rewrite !node_tree_of by lia. unfold price.
    replace (i + 1 - (j + 1))%nat with (i - j)%nat by lia.
    replace (i + 1 - j)%nat with (S (i - j)) by lia.
    replace (j + 1)%nat with (S j) by lia. simpl pow. split; ring.
Qed.

Lemma produce_tree_recombines_witness :
  exists (dt u d : R) (tree : list (list R)),
    find_dt_u_d (4 / 100) (2 / 10) 10 40 = Ok (dt, u, d)
    /\ produce_tree 100 (4 / 100) (2 / 10) 10 40 = Ok tree
    /\ List.length tree = (40 + 1)%nat
    /\ (forall i, (i <= 40)%nat -> List.length (nth i tree []) = (i + 1)%nat)
    /\ node tree 0 0 = 100
    /\ (forall i j, (i < 40)%nat -> (j <= i)%nat ->
          node tree (i + 1) (j + 1) = u * node tree i j
          /\ node tree (i + 1) j = d * node tree i j).
Proof.
  apply (produce_tree_recombines 100 (4 / 100) (2 / 10) 10 40); [lra | lia].
Defined.

(** ** What [u] and [d] are chosen for *)

Lemma sqrt_A_squared (sigma T : R) (N : nat) :
  0 <= T -> (1 <= N)%nat ->
  sqrt (lattice_A sigma T N) * sqrt (lattice_A sigma T N) = lattice_A sigma T N.
Proof. intros HT HN. apply sqrt_sqrt. now apply A_nonneg. Qed.

(** X3: for [0 <= T] and [steps >= 1] the two equally likely factors
    reproduce the first two moments of one step of the price: their mean
    is [exp(r*dt)] and the mean of their squares is
    [exp((2*r + sigma^2)*dt)]. *)
Theorem factors_match_two_moments (r sigma T : R) (N : nat) :
  0 <= T -> (1 <= N)%nat ->
  exists dt u d : R,
    find_dt_u_d r sigma T N = Ok (dt, u, d)
    /\ 0.5 * (u + d) = exp (r * dt)
    /\ 0.5 * (u ^ 2 + d ^ 2) = exp ((2 * r + sigma ^ 2) * dt).
Proof.
  intros HT HN.
  exists (lattice_dt T N), (lattice_u r sigma T N), (lattice_d r sigma T N).
  split; [now apply find_dt_u_d_ok|]. split; [apply mean_of_factors|].
  pose proof (sqrt_A_squared sigma T N HT HN) as Hsq.
  unfold lattice_u, lattice_d.
  set (B := lattice_B r T N). set (q := sqrt (lattice_A sigma T N)) in *.
  transitivity (B * B * (1 + q * q)); [rewrite half_is_inv_2; field|].
  rewrite Hsq. unfold B, lattice_B, lattice_A.
  replace (1 + (exp (sigma ^ 2 * lattice_dt T N) - 1))
    with (exp (sigma ^ 2 * lattice_dt T N)) by ring.
  rewrite <- !exp_plus. f_equal. ring.
Qed.

Lemma factors_match_two_moments_witness :
  exists dt u d : R,
    find_dt_u_d (4 / 100) (2 / 10) 10 40 = Ok (dt, u, d)
    /\ 0.5 * (u + d) = exp (4 / 100 * dt)
    /\ 0.5 * (u ^ 2 + d ^ 2) = exp ((2 * (4 / 100) + (2 / 10) ^ 2) * dt).
Proof.
  apply (factors_match_two_moments (4 / 100) (2 / 10) 10 40); [lra | lia].
Defined.

Lemma sqrt_A_below_one (sigma T : R) (N : nat) :
  0 <= T -> (1 <= N)%nat ->
  (sqrt (lattice_A sigma T N) < 1 <-> sigma ^ 2 * lattice_dt T N < ln 2).
Proof.
  intros HT HN. pose proof (A_nonneg sigma T N HT HN) as HA.
  assert (Hexp2 : exp (ln 2) = 2) by (apply exp_ln; lra).
  unfold lattice_A in *. split; intros H.
  - apply exp_lt_inv. rewrite Hexp2.
    assert (Hlt : exp (sigma ^ 2 * lattice_dt T N) - 1 < 1).
    { apply sqrt_lt_0_alt. now rewrite sqrt_1. }
    lra.
  - apply Rlt_le_trans with (sqrt 1); [|rewrite sqrt_1; lra].
    apply sqrt_lt_1_alt. split; [exact HA|].
    apply exp_increasing in H. rewrite Hexp2 in H. lra.
Qed.

Lemma sqrt_A_above_one (sigma T : R) (N : nat) :
  0 <= T -> (1 <= N)%nat ->
  (1 < sqrt (lattice_A sigma T N) <-> ln 2 < sigma ^ 2 * lattice_dt T N).
Proof.
  intros HT HN.
  assert (Hexp2 : exp (ln 2) = 2) by (apply exp_ln; lra).
  unfold lattice_A in *. split; intros H.
  - apply exp_lt_inv. rewrite Hexp2.
    assert (Hlt : 1 < exp (sigma ^ 2 * lattice_dt T N) - 1).
    { apply sqrt_lt_0_alt. now rewrite sqrt_1. }
    lra.
  - apply Rle_lt_trans with (sqrt 1); [rewrite sqrt_1; lra|].
    apply sqrt_lt_1_alt. split; [lra|].
    apply exp_increasing in H. rewrite Hexp2 in H. lra.
Qed.

Lemma lattice_d_positive (r sigma T : R) (N : nat) :
  0 <= T -> (1 <= N)%nat ->
  (0 < lattice_d r sigma T N <-> sigma ^ 2 * lattice_dt T N < ln 2).
Proof.
  intros HT HN.
  assert (HB : 0 < lattice_B r T N) by apply exp_pos.
  rewrite <- (sqrt_A_below_one sigma T N HT HN).
  unfold lattice_d. split; intros H; nra.
Qed.

Lemma lattice_d_negative (r sigma T : R) (N : nat) :
  0 <= T -> (1 <= N)%nat ->
  (lattice_d r sigma T N < 0 <-> ln 2 < sigma ^ 2 * lattice_dt T N).
Proof.
  intros HT HN.
  assert (HB : 0 < lattice_B r T N) by apply exp_pos.
  rewrite <- (sqrt_A_above_one sigma T N HT HN).
  unfold lattice_d. split; intros H; nra.
Qed.

Lemma lattice_u_positive (r sigma T : R) (N : nat) : 0 < lattice_u r sigma T N.
Proof.
  assert (HB : 0 < lattice_B r T N) by apply exp_pos.
  pose proof (sqrt_pos (lattice_A sigma T N)) as Hq.
  unfold lattice_u. nra.
Qed.

(** X4: for [0 <= T] and [steps >= 1] the up factor is positive, and the
    down factor is positive exactly when [sigma^2*dt < ln 2] and negative
    exactly when [sigma^2*dt > ln 2]. *)
Theorem down_factor_sign (r sigma T : R) (N : nat) :
  0 <= T -> (1 <= N)%nat ->
  exists dt u d : R,
    find_dt_u_d r sigma T N = Ok (dt, u, d)
    /\ 0 < u
    /\ (0 < d <-> sigma ^ 2 * dt < ln 2)
    /\ (d < 0 <-> ln 2 < sigma ^ 2 * dt).
Proof.
  intros HT HN.
  exists (lattice_dt T N), (lattice_u r sigma T N), (lattice_d r sigma T N).
  split; [now apply find_dt_u_d_ok|].
  split; [apply lattice_u_positive|].
  split.
  - now apply lattice_d_positive.
  - now apply lattice_d_negative.
Qed.

Lemma down_factor_sign_witness :
  exists dt u d : R,
    find_dt_u_d (4 / 100) (2 / 10) 10 40 = Ok (dt, u, d)
    /\ 0 < u
    /\ (0 < d <-> (2 / 10) ^ 2 * dt < ln 2)
    /\ (d < 0 <-> ln 2 < (2 / 10) ^ 2 * dt).
Proof.
  apply (down_factor_sign (4 / 100) (2 / 10) 10 40); [lra | lia].
Defined.

Lemma price_pos (S0 u d : R) (i j : nat) :
  0 < S0 -> 0 < u -> 0 < d -> 0 < price S0 u d i j.
Proof.
  intros HS Hu Hd. unfold price.
  apply Rmult_lt_0_compat; [apply Rmult_lt_0_compat|]; auto using pow_lt.
Qed.

Lemma Forall_tree_of (P : R -> Prop) (S0 u d : R) (N : nat) :
  (forall i j, P (price S0 u d i j)) -> Forall (Forall P) (tree_of S0 u d N).
Proof.
  intros H. unfold tree_of.
  apply Forall_forall. intros row Hrow. apply in_map_iff in Hrow.
  destruct Hrow as (i & <- & _).
  apply Forall_forall. intros x Hx. apply in_map_iff in Hx.
  destruct Hx as (j & <- & _). apply H.
Qed.

(** X5: with [S_0 > 0], [0 <= T] and [steps >= 1], every price of the tree
    is positive when [sigma^2*T/steps < ln 2]; when [sigma^2*T/steps > ln 2]
    the tree holds a negative price already at level 1 (the down move). *)
Theorem produce_tree_sign (S0 r sigma T : R) (N : nat) :
  0 < S0 -> 0 <= T -> (1 <= N)%nat ->
  exists tree : list (list R),
    produce_tree S0 r sigma T N = Ok tree
    /\ (sigma ^ 2 * (T / INR N) < ln 2 -> Forall (Forall (Rlt 0)) tree)
    /\ (ln 2 < sigma ^ 2 * (T / INR N) -> node tree 1 0 < 0).
Proof.
  intros HS HT HN.
  eexists. split; [now apply produce_tree_ok|]. split.
  - intros H. apply Forall_tree_of. intros i j.
    apply price_pos; [exact HS | apply lattice_u_positive|].
    now apply lattice_d_positive.
  - intros H. rewrite node_tree_of by lia. unfold price. simpl.
    apply (lattice_d_negative r sigma T N HT HN) in H. nra.
Qed.

Lemma produce_tree_sign_witness :
  exists tree : list (list R),
    produce_tree 100 (4 / 100) (2 / 10) 10 40 = Ok tree
    /\ ((2 / 10) ^ 2 * (10 / INR 40) < ln 2 -> Forall (Forall (Rlt 0)) tree)
    /\ (ln 2 < (2 / 10) ^ 2 * (10 / INR 40) -> node tree 1 0 < 0).
Proof.
  apply (produce_tree_sign 100 (4 / 100) (2 / 10) 10 40); [lra | lra | lia].
Defined.

(** ** The European price as a discounted binomial expectation *)

Lemma C_n_0 (n : nat) : C n 0 = 1.
Proof.
  unfold C. rewrite Nat.sub_0_r. simpl fact. simpl INR.
  field. apply INR_fact_neq_0.
Qed.

Lemma C_n_n (n : nat) : C n n = 1.
Proof.
  unfold C. rewrite Nat.sub_diag. simpl fact. simpl INR.
  field. apply INR_fact_neq_0.
Qed.

(** Pascal's rule, summed against a sequence and its shift. *)
Lemma pascal_sum (f : nat -> R) (k : nat) :
  sum_f_R0 (fun m => C k m * f m) k + sum_f_R0 (fun m => C k m * f (S m)) k
  = sum_f_R0 (fun m => C (S k) m * f m) (S k).
Proof.
  destruct k as [|k'].
  - simpl. rewrite !C_n_0, (C_n_n 1). ring.
  - rewrite (decomp_sum (fun m => C (S (S k')) m * f m) (S (S k'))) by lia.
    cbn [Init.Nat.pred].
    rewrite (tech5 (fun i => C (S (S k')) (S i) * f (S i)) k').
    rewrite (sum_eq (fun i => C (S (S k')) (S i) * f (S i))
                    (fun i => C (S k') i * f (S i) + C (S k') (S i) * f (S i)) k')
      by (intros i Hi; rewrite <- (pascal (S k') i) by lia; ring).
    rewrite sum_plus.
    rewrite (decomp_sum (fun m => C (S k') m * f m) (S k')) by lia.
    cbn [Init.Nat.pred].
    rewrite (tech5 (fun m => C (S k') m * f (S m)) k').
    rewrite !C_n_0, !C_n_n. ring.
Qed.

Lemma hold_node_binomial (discount : R) (leaf : nat -> R) (k j : nat) :
  hold_node discount leaf k j
  = (discount * 0.5) ^ k * sum_f_R0 (fun m => C k m * leaf (j + m)%nat) k.
Proof.
  revert j. induction k as [|k IH]; intros j.
  - simpl. rewrite C_n_0, Nat.add_0_r. ring.
  - cbn [hold_node]. rewrite !IH.
    rewrite <- (pascal_sum (fun m => leaf (j + m)%nat) k).
    rewrite (sum_eq (fun m => C k m * leaf (S j + m)%nat)
                    (fun m => C k m * leaf (j + S m)%nat) k)
      by (intros i _; do 2 f_equal; lia).
    simpl pow. ring.
Qed.

(** X6: for [0 <= T], [steps >= 1] and a recognised kind the European
    price is the
    discounted mean of the terminal payoffs under equal up and down
    probabilities:
    [exp(-r*T) * 0.5^N * sum_j C(N,j) * payoff(S_0*u^j*d^(N-j), E, kind)]. *)
Theorem find_euro_option_value_is_expectation
        (S0 r sigma T : R) (N : nat) (E : R) (kind : string) :
  0 <= T -> (1 <= N)%nat -> recognized kind = true ->
  exists (dt u d : R) (leaf : nat -> R),
    find_dt_u_d r sigma T N = Ok (dt, u, d)
    /\ (forall j, Binomial.payoff (S0 * u ^ j * d ^ (N - j)) E kind = Num (leaf j))
    /\ find_euro_option_value S0 r sigma T N E kind
       = Ok (Num (exp (- r * T) * 0.5 ^ N
                  * sum_f_R0 (fun j => C N j * leaf j) N)).
Proof.
  intros _ HN Hkind.
  exists (lattice_dt T N), (lattice_u r sigma T N), (lattice_d r sigma T N),
    (fun j => intrinsic (price S0 (lattice_u r sigma T N)
                               (lattice_d r sigma T N) N j) E kind).
  split; [now apply find_dt_u_d_ok|].
  split; [intros j; now apply payoff_recognized|].
  rewrite find_euro_ok by assumption. do 2 f_equal.
  unfold euro_V. rewrite Nat.sub_0_r, hold_node_binomial.
  rewrite Rpow_mult_distr, discount_over_horizon by exact HN.
  reflexivity.
Qed.

Lemma find_euro_option_value_is_expectation_witness :
  exists (dt u d : R) (leaf : nat -> R),
    find_dt_u_d (4 / 100) (2 / 10) 10 40 = Ok (dt, u, d)
    /\ (forall j, Binomial.payoff (100 * u ^ j * d ^ (40 - j)) 120 "put"
                  = Num (leaf j))
    /\ find_euro_option_value 100 (4 / 100) (2 / 10) 10 40 120 "put"
       = Ok (Num (exp (- (4 / 100) * 10) * 0.5 ^ 40
                  * sum_f_R0 (fun j => C 40 j * leaf j) 40)).
Proof.
  apply (find_euro_option_value_is_expectation
           100 (4 / 100) (2 / 10) 10 40 120 "put");
    [lra | lia | reflexivity].
Defined.

(** ** Bounds on the prices *)

Lemma hold_node_mono (discount : R) (f g : nat -> R) (k j : nat) :
  0 <= discount -> (forall i, f i <= g i) ->
  hold_node discount f k j <= hold_node discount g k j.
Proof.
  intros Hd Hfg. revert j. induction k as [|k IH]; intros j; cbn [hold_node].
  - apply Hfg.
  - pose proof (IH j). pose proof (IH (S j)). nra.
Qed.

Lemma hold_node_flat (discount c : R) (k j : nat) :
  hold_node discount (fun _ => c) k j = c * discount ^ k.
Proof.
  revert j. induction k as [|k IH]; intros j; cbn [hold_node].
  - simpl. ring.
  - rewrite !IH, half_is_inv_2. simpl pow. field.
Qed.

Lemma intrinsic_root (S0 u d E : R) (kind : string) :
  intrinsic (price S0 u d 0 0) E kind = intrinsic S0 E kind.
Proof. unfold price. simpl. f_equal. ring. Qed.

(** X7: for [0 <= T] and [steps >= 1] the European call is worth at least
    [S_0 - E*exp(-r*T)] and the European put at least [E*exp(-r*T) - S_0]. *)
Theorem european_lower_bounds (S0 r sigma T : R) (N : nat) (E : R) :
  0 <= T -> (1 <= N)%nat ->
  exists call put : R,
    find_euro_option_value S0 r sigma T N E "call" = Ok (Num call)
    /\ find_euro_option_value S0 r sigma T N E "put" = Ok (Num put)
    /\ Rmax 0 (S0 - E * exp (- r * T)) <= call
    /\ Rmax 0 (E * exp (- r * T) - S0) <= put.
Proof.
  intros _ HN. do 2 eexists.
  split; [now apply find_euro_ok|]. split; [now apply find_euro_ok|].
  pose proof (euro_call_minus_put S0 r sigma T N E HN) as Hpar.
  pose proof (euro_V_nonneg S0 r sigma T N E "call" 0 0) as Hc.
  pose proof (euro_V_nonneg S0 r sigma T N E "put" 0 0) as Hp.
  split; apply Rmax_lub; lra.
Qed.

Lemma european_lower_bounds_witness :
  exists call put : R,
    find_euro_option_value 100 (4 / 100) (2 / 10) 10 40 120 "call" = Ok (Num call)
    /\ find_euro_option_value 100 (4 / 100) (2 / 10) 10 40 120 "put" = Ok (Num put)
    /\ Rmax 0 (100 - 120 * exp (- (4 / 100) * 10)) <= call
    /\ Rmax 0 (120 * exp (- (4 / 100) * 10) - 100) <= put.
Proof.
  apply (european_lower_bounds 100 (4 / 100) (2 / 10) 10 40 120); [lra | lia].
Defined.

Lemma intrinsic_put_le_strike (S E : R) :
  0 <= S -> 0 <= E -> intrinsic S E "put" <= E.
Proof.
  intros HS HE. unfold intrinsic, Binomial.payoff.
  cbn [String.eqb Ascii.eqb Bool.eqb andb].
  destruct (Rgt_dec (E - S) 0); lra.
Qed.

(** X8: with [S_0 >= 0], [E >= 0], [0 <= T], [steps >= 1] and
    [sigma^2*T/steps < ln 2] (so that no price of the tree is negative) the
    European put is worth at most [E*exp(-r*T)] and the European call at
    most [S_0]. *)
Theorem european_upper_bounds (S0 r sigma T : R) (N : nat) (E : R) :
  0 <= S0 -> 0 <= E -> 0 <= T -> (1 <= N)%nat ->
  sigma ^ 2 * (T / INR N) < ln 2 ->
  exists call put : R,
    find_euro_option_value S0 r sigma T N E "call" = Ok (Num call)
    /\ find_euro_option_value S0 r sigma T N E "put" = Ok (Num put)
    /\ call <= S0
    /\ put <= E * exp (- r * T).
Proof.
  intros HS HE HT HN Hsmall. do 2 eexists.
  split; [now apply find_euro_ok|]. split; [now apply find_euro_ok|].
  assert (Hput : euro_V S0 r sigma T N E "put" 0 0 <= E * exp (- r * T)).
  { pose proof (lattice_u_positive r sigma T N) as Hu.
    apply (lattice_d_positive r sigma T N HT HN) in Hsmall.
    unfold euro_V. rewrite Nat.sub_0_r.
    rewrite <- (discount_over_horizon r T N HN), <- hold_node_flat with (j := 0%nat).
    apply hold_node_mono; [left; apply exp_pos|].
    intros i. apply intrinsic_put_le_strike; [|exact HE].
    unfold price. apply Rmult_le_pos; [apply Rmult_le_pos|];
      [exact HS | apply pow_le; lra | apply pow_le; lra]. }
  pose proof (euro_call_minus_put S0 r sigma T N E HN) as Hpar.
  split; lra.
Qed.

Lemma european_upper_bounds_witness :
  exists call put : R,
    find_euro_option_value 100 0 1 (1 / 2) 1 120 "call" = Ok (Num call)
    /\ find_euro_option_value 100 0 1 (1 / 2) 1 120 "put" = Ok (Num put)
    /\ call <= 100
    /\ put <= 120 * exp (- 0 * (1 / 2)).
Proof.
  apply (european_upper_bounds 100 0 1 (1 / 2) 1 120); try lra; try lia.
  simpl INR. replace (1 ^ 2 * (1 / 2 / 1)) with (/ 2) by field.
  pose proof ln_lt_2. lra.
Defined.

(** ** Early exercise *)

Lemma amer_V_root_ge_exercise (S0 r sigma T : R) (N : nat) (E : R)
      (kind : string) :
  (1 <= N)%nat ->
  intrinsic S0 E kind <= amer_V S0 r sigma T N E kind 0 0.
Proof.
  intros HN. rewrite amer_V_inner by lia. rewrite intrinsic_root.
  apply Rmax_r.
Qed.

(** X9: for [0 <= T], [steps >= 1] and a recognised kind the American
    value is at
    least the payoff of exercising at once, [payoff(S_0, E, kind)]; when
    the returned flag is [True] the value is exactly that payoff and the
    payoff is positive, so an option with zero payoff at [S_0] is never
    flagged for exercise. *)
Theorem american_value_and_flag
        (S0 r sigma T : R) (N : nat) (E : R) (kind : string) :
  0 <= T -> (1 <= N)%nat -> recognized kind = true ->
  exists (amer now : R) (exercise : bool),
    find_amer_option_value S0 r sigma T N E kind = Ok (Num amer, exercise)
    /\ Binomial.payoff S0 E kind = Num now
    /\ now <= amer
    /\ (exercise = true -> amer = now /\ 0 < now).
Proof.
  intros _ HN Hkind. do 3 eexists.
  split; [now apply find_amer_ok|].
  split; [now apply payoff_recognized|].
  split; [now apply amer_V_root_ge_exercise|].
  unfold amer_exercise. rewrite intrinsic_root.
  destruct (Rgt_dec _ _) as [Hgt|_]; [|discriminate]. intros _.
  assert (Hhold : 0 <= amer_hold S0 r sigma T N E kind 0 0).
  { unfold amer_hold.
    assert (Ha : forall i j, 0 <= amer_V S0 r sigma T N E kind i j).
    { intros i j. eapply Rle_trans;
        [apply euro_V_nonneg | apply euro_V_le_amer_V]. }
    pose proof (Ha 1%nat 0%nat). pose proof (Ha 1%nat 1%nat).
    pose proof (exp_pos (- r * lattice_dt T N)). nra. }
  split; [|lra].
  rewrite amer_V_inner by lia. rewrite intrinsic_root.
  apply Rmax_right. unfold amer_hold in *.
  change (0 + 1)%nat with 1%nat. lra.
Qed.

Lemma american_value_and_flag_witness :
  exists (amer now : R) (exercise : bool),
    find_amer_option_value 100 (4 / 100) (2 / 10) 10 40 120 "put"
    = Ok (Num amer, exercise)
    /\ Binomial.payoff 100 120 "put" = Num now
    /\ now <= amer
    /\ (exercise = true -> amer = now /\ 0 < now).
Proof.
  apply (american_value_and_flag 100 (4 / 100) (2 / 10) 10 40 120 "put");
    [lra | lia | reflexivity].
Defined.




Section CallIsNeverExercised.

Variables (S0 r sigma T : R) (N : nat) (E : R).
Hypotheses (Hr : 0 <= r) (HE : 0 <= E) (HT : 0 <= T) (HN : (1 <= N)%nat).

Let u := lattice_u r sigma T N.
Let d := lattice_d r sigma T N.
Let discount := exp (- r * lattice_dt T N).
Let leaf := fun j => intrinsic (price S0 u d N j) E "call".
Let exv := fun k' j => intrinsic (price S0 u d (N - S k') j) E "call".





End CallIsNeverExercised.



Lemma intrinsic_cash_pair (S E : R) :
  intrinsic S E "cash_or_nothing_call"
  <= 10 - intrinsic S E "cash_or_nothing_put".
Proof.
  unfold intrinsic, Binomial.payoff.
  cbn [String.eqb Ascii.eqb Bool.eqb andb].
  destruct (Rgt_dec (S - E) 0), (Rgt_dec (E - S) 0); lra.
Qed.

(** X11: for [0 <= T] and [steps >= 1] the European cash-or-nothing call and put on the
    same inputs are each non-negative and together worth at most the
    discounted cash amount, [10*exp(-r*T)]. *)
Theorem cash_or_nothing_pair_bound (S0 r sigma T : R) (N : nat) (E : R) :
  0 <= T -> (1 <= N)%nat ->
  exists call put : R,
    find_euro_option_value S0 r sigma T N E "cash_or_nothing_call"
    = Ok (Num call)
    /\ find_euro_option_value S0 r sigma T N E "cash_or_nothing_put"
       = Ok (Num put)
    /\ 0 <= call /\ 0 <= put
    /\ call + put <= 10 * exp (- r * T).
Proof.
  intros _ HN. do 2 eexists.
  split; [now apply find_euro_ok|]. split; [now apply find_euro_ok|].
  split; [apply euro_V_nonneg|]. split; [apply euro_V_nonneg|].
  unfold euro_V. rewrite Nat.sub_0_r.
  set (disc := exp (- r * lattice_dt T N)).
  set (u := lattice_u r sigma T N). set (d := lattice_d r sigma T N).
  assert (H : hold_node disc
                (fun j => intrinsic (price S0 u d N j) E "cash_or_nothing_call")
                N 0
              <= hold_node disc
                   (fun j => 10 - intrinsic (price S0 u d N j) E
                                            "cash_or_nothing_put") N 0).
  { apply hold_node_mono; [left; apply exp_pos|].
    intros i. apply intrinsic_cash_pair. }
  rewrite (hold_node_minus disc (fun _ => 10)) in H.
  rewrite hold_node_flat in H. unfold disc in H at 2.
  rewrite discount_over_horizon in H by exact HN. lra.
Qed.

Lemma cash_or_nothing_pair_bound_witness :
  exists call put : R,
    find_euro_option_value 100 (4 / 100) (2 / 10) 10 40 120
                           "cash_or_nothing_call" = Ok (Num call)
    /\ find_euro_option_value 100 (4 / 100) (2 / 10) 10 40 120
                              "cash_or_nothing_put" = Ok (Num put)
    /\ 0 <= call /\ 0 <= put
    /\ call + put <= 10 * exp (- (4 / 100) * 10).
Proof.
  apply (cash_or_nothing_pair_bound 100 (4 / 100) (2 / 10) 10 40 120);
    [lra | lia].
Defined.

(** ** The difference quotients of [BlackScholes.py] *)

Lemma getitem_nth {A : Type} (l : list A) (i : nat) (dflt : A) :
  (i < List.length l)%nat -> getitem l (Z.of_nat i) = Ok (nth i l dflt).
Proof.
  intros H. apply getitem_nat. now apply nth_error_nth'.
Qed.

(** A negative subscript [-k] reads the element [len - k]. *)
Lemma getitem_from_end {A : Type} (l : list A) (k : nat) (dflt : A) :
  (1 <= k <= List.length l)%nat ->
  getitem l (- Z.of_nat k) = Ok (nth (List.length l - k) l dflt).
Proof.
  intros H. rewrite <- (getitem_nth l (List.length l - k) dflt) by lia.
  unfold getitem.
  destruct (Z.ltb_spec (- Z.of_nat k) 0) as [_|Hge]; [|lia].
  destruct (Z.ltb_spec (Z.of_nat (List.length l - k)) 0) as [Hlt|_]; [lia|].
  replace (Z.of_nat (List.length l) + - Z.of_nat k)%Z
    with (Z.of_nat (List.length l - k)) by lia.
  reflexivity.
Qed.

Lemma getitem_past_end {A : Type} (l : list A) (i : nat) :
  (List.length l <= i)%nat -> getitem l (Z.of_nat i) = Raise IndexError.
Proof.
  intros H. unfold getitem.
  destruct (Z.ltb_spec (Z.of_nat i) 0) as [Hlt|_]; [lia|].
  destruct (Z.ltb_spec (Z.of_nat i) (Z.of_nat (List.length l))) as [Hlt|_];
    [lia|].
  now rewrite andb_false_r.
Qed.

Section DifferenceQuotients.

Variables (V_list S_list : list R).
Hypothesis same_length : List.length S_list = List.length V_list.
Hypothesis grid : distinct_neighbours S_list.

Lemma spacing_nonzero (i : nat) :
  (i + 1 < List.length V_list)%nat ->
  nth (i + 1) S_list 0 - nth i S_list 0 <> 0.
Proof.
  intros Hi Heq. apply (grid i); [lia | lra].
Qed.

(** The loop of [find_dVdS]. *)
Lemma dVdS_loop :
  for_each
    (fun i dVdS_list =>
       V_1 <- getitem V_list (Z.of_nat i) ;;
       V_2 <- getitem V_list (Z.of_nat i + 1) ;;
       S_1 <- getitem S_list (Z.of_nat i) ;;
       S_2 <- getitem S_list (Z.of_nat i + 1) ;;
       dVdS <- py_div (V_2 - V_1) (S_2 - S_1) ;;
       Ok (dVdS_list ++ [dVdS]))
    (range (List.length V_list - 1)) []
  = Ok (map (slope V_list S_list) (seq 0 (List.length V_list - 1))).
Proof.
  unfold range. apply (for_each_append_ok _ _ _ []).
  intros i acc Hi. apply in_seq in Hi.
  replace (Z.of_nat i + 1)%Z with (Z.of_nat (i + 1)) by lia.
  rewrite (getitem_nth V_list i 0), (getitem_nth V_list (i + 1) 0) by lia.
  rewrite (getitem_nth S_list i 0), (getitem_nth S_list (i + 1) 0) by lia.
  cbn [bind]. rewrite py_div_ok by (apply spacing_nonzero; lia).
  reflexivity.
Qed.

(** The loop of [find_d2VdS2]. *)
Lemma d2VdS2_loop :
  for_each
    (fun i d2VdS2_list =>
       V_minus <- getitem V_list (Z.of_nat i - 1) ;;
       V <- getitem V_list (Z.of_nat i) ;;
       V_plus <- getitem V_list (Z.of_nat i + 1) ;;
       S_1 <- getitem S_list (Z.of_nat i) ;;
       S_2 <- getitem S_list (Z.of_nat i + 1) ;;
       d2VdS2 <- py_div (V_minus - (2 * V) + V_plus) (S_2 - S_1) ;;
       Ok (d2VdS2_list ++ [d2VdS2]))
    (range2 1 (List.length V_list - 1)) []
  = Ok (map (bend V_list S_list) (seq 1 (List.length V_list - 1 - 1))).
Proof.
  unfold range2. apply (for_each_append_ok _ _ _ []).
  intros i acc Hi. apply in_seq in Hi.
  replace (Z.of_nat i - 1)%Z with (Z.of_nat (i - 1)) by lia.
  replace (Z.of_nat i + 1)%Z with (Z.of_nat (i + 1)) by lia.
  rewrite (getitem_nth V_list (i - 1) 0), (getitem_nth V_list i 0),
    (getitem_nth V_list (i + 1) 0) by lia.
  rewrite (getitem_nth S_list i 0), (getitem_nth S_list (i + 1) 0) by lia.
  cbn [bind]. rewrite py_div_ok by (apply spacing_nonzero; lia).
  reflexivity.
Qed.

End DifferenceQuotients.

(** The list [find_dVdS] builds. *)
Lemma find_dVdS_list (V_list S_list : list R) :
  List.length S_list = List.length V_list ->
  (4 <= List.length V_list)%nat ->
  distinct_neighbours S_list ->
  let n := List.length V_list in
  let g := slope V_list S_list in
  let s := fun i => nth i S_list 0 in
  find_dVdS V_list S_list
  = Ok (map g (seq 0 (n - 1))
        ++ [g (n - 2)%nat
            + (s (n - 1)%nat - s (n - 2)%nat)
              * ((g (n - 2)%nat - g (n - 3)%nat)
                 / (s (n - 3)%nat - s (n - 4)%nat))]).
Proof.
  intros Hlen Hn Hgrid n g s. unfold find_dVdS.
  rewrite dVdS_loop by assumption. cbn [bind]. fold n g.
  rewrite length_map, length_seq.
  assert (Hn' : exists m, n = S (S (S (S m)))).
  { exists (n - 4)%nat. unfold n. lia. }
  destruct Hn' as [m Hm]. unfold n in Hm. fold n in Hm.
  assert (HS : List.length S_list = S (S (S (S m)))) by (rewrite Hlen; exact Hm).
  rewrite Hm. cbn [Nat.sub].
  replace (Z.of_nat (S (S (S m))) - 1)%Z with (Z.of_nat (S (S m))) by lia.
  replace (Z.of_nat (S (S (S m))) - 2)%Z with (Z.of_nat (S m)) by lia.
  replace (Z.of_nat (S (S (S m))) - 3)%Z with (Z.of_nat m) by lia.
  rewrite !getitem_map_seq by lia. cbn [bind].
  rewrite (getitem_nth S_list (S m) 0), (getitem_nth S_list m 0) by lia.
  cbn [bind].
  assert (Hd : nth (S m) S_list 0 - nth m S_list 0 <> 0).
  { replace (S m) with (m + 1)%nat by lia.
    apply (spacing_nonzero V_list S_list Hlen Hgrid m). fold n. lia. }
  rewrite py_div_ok by exact Hd. cbn [bind].
  change (-1)%Z with (- Z.of_nat 1)%Z. change (-2)%Z with (- Z.of_nat 2)%Z.
  rewrite (getitem_from_end S_list 1 0), (getitem_from_end S_list 2 0) by lia.
  cbn [bind]. rewrite HS. cbn [Nat.sub]. unfold s.
  rewrite !Nat.sub_0_r. reflexivity.
Qed.

(** X12: on lists of equal length [n >= 4] whose neighbouring grid points
    differ, [find_dVdS] returns [n] numbers: the forward difference
    [(V[i+1]-V[i])/(S[i+1]-S[i])] for [i < n-1], then a last entry that
    extends the last two of them linearly, with the change of slope
    divided by the spacing [S[n-3] - S[n-4]]. *)
Theorem find_dVdS_on_grid (V_list S_list : list R) :
  List.length S_list = List.length V_list ->
  (4 <= List.length V_list)%nat ->
  distinct_neighbours S_list ->
  let n := List.length V_list in
  let g := slope V_list S_list in
  let s := fun i => nth i S_list 0 in
  exists dVdS_list : list R,
    find_dVdS V_list S_list = Ok dVdS_list
    /\ List.length dVdS_list = n
    /\ (forall i, (i + 1 < n)%nat -> nth i dVdS_list 0 = g i)
    /\ nth (n - 1) dVdS_list 0
       = g (n - 2)%nat
         + (s (n - 1)%nat - s (n - 2)%nat)
           * ((g (n - 2)%nat - g (n - 3)%nat) / (s (n - 3)%nat - s (n - 4)%nat)).
Proof.
  intros Hlen Hn Hgrid n g s. eexists.
  split; [now apply find_dVdS_list|]. fold n g s.
  assert (Hl : List.length (map g (seq 0 (n - 1))) = (n - 1)%nat)
    by now rewrite length_map, length_seq.
  split; [|split].
  - rewrite length_app, Hl. simpl. unfold n in *. lia.
  - intros i Hi. rewrite app_nth1 by lia. now rewrite nth_map_seq by lia.
  - rewrite app_nth2 by lia. rewrite Hl, Nat.sub_diag. reflexivity.
Qed.

Lemma find_dVdS_on_grid_witness :
  let V_list := [1; 4; 9; 16; 25] in
  let S_list := [1; 2; 3; 4; 5] in
  let n := List.length V_list in
  let g := slope V_list S_list in
  let s := fun i => nth i S_list 0 in
  exists dVdS_list : list R,
    find_dVdS V_list S_list = Ok dVdS_list
    /\ List.length dVdS_list = n
    /\ (forall i, (i + 1 < n)%nat -> nth i dVdS_list 0 = g i)
    /\ nth (n - 1) dVdS_list 0
       = g (n - 2)%nat
         + (s (n - 1)%nat - s (n - 2)%nat)
           * ((g (n - 2)%nat - g (n - 3)%nat) / (s (n - 3)%nat - s (n - 4)%nat)).
Proof.
  apply (find_dVdS_on_grid [1; 4; 9; 16; 25] [1; 2; 3; 4; 5]).
  - reflexivity.
  - simpl. lia.
  - intros i Hi. simpl in Hi.
    destruct i as [|[|[|[|i]]]]; simpl; try lra; lia.
Defined.

Lemma getitem_map_seq_from {A : Type} (f : nat -> A) (a n j : nat) :
  (j < n)%nat -> getitem (map f (seq a n)) (Z.of_nat j) = Ok (f (a + j)%nat).
Proof.
  intros H. apply getitem_nat.
  rewrite nth_error_map, nth_error_seq.
  destruct (Nat.ltb_spec j n); [reflexivity | lia].
Qed.

Lemma getitem_app_l {A : Type} (l1 l2 : list A) (j : nat) :
  (j < List.length l1)%nat ->
  getitem (l1 ++ l2) (Z.of_nat j) = getitem l1 (Z.of_nat j).
Proof.
  intros Hj. destruct (nth_error l1 j) as [a|] eqn:Ha.
  - rewrite (getitem_nat l1 j a Ha). apply getitem_nat.
    now rewrite nth_error_app1.
  - apply nth_error_None in Ha. lia.
Qed.

(** The list [find_d2VdS2] builds. *)
Lemma find_d2VdS2_list (V_list S_list : list R) :
  List.length S_list = List.length V_list ->
  (5 <= List.length V_list)%nat ->
  distinct_neighbours S_list ->
  let n := List.length V_list in
  let b := bend V_list S_list in
  let s := fun i => nth i S_list 0 in
  find_d2VdS2 V_list S_list
  = Ok ((b 1%nat - (s 1%nat - s 0%nat)
                   * ((b 2%nat - b 1%nat) / (s 1%nat - s 0%nat)))
        :: map b (seq 1 (n - 2))
        ++ [b (n - 2)%nat
            + (s (n - 1)%nat - s (n - 2)%nat)
              * ((b (n - 2)%nat - b (n - 3)%nat)
                 / (s (n - 4)%nat - s (n - 5)%nat))]).
Proof.
  intros Hlen Hn Hgrid n b s. unfold find_d2VdS2.
  rewrite d2VdS2_loop by assumption. cbn [bind]. fold n b.
  rewrite length_map, length_seq.
  assert (Hn' : exists m, n = S (S (S (S (S m))))).
  { exists (n - 5)%nat. unfold n. lia. }
  destruct Hn' as [m Hm]. unfold n in Hm. fold n in Hm.
  assert (HS : List.length S_list = S (S (S (S (S m)))))
    by (rewrite Hlen; exact Hm).
  rewrite Hm. cbn [Nat.sub].
  replace (Z.of_nat (S (S (S m))) - 1)%Z with (Z.of_nat (S (S m))) by lia.
  replace (Z.of_nat (S (S (S m))) - 2)%Z with (Z.of_nat (S m)) by lia.
  replace (Z.of_nat (S (S (S m))) - 3)%Z with (Z.of_nat m) by lia.
  rewrite !getitem_map_seq_from by lia. cbn [bind].
  rewrite (getitem_nth S_list (S m) 0), (getitem_nth S_list m 0) by lia.
  cbn [bind].
  assert (Hd : nth (S m) S_list 0 - nth m S_list 0 <> 0).
  { replace (S m) with (m + 1)%nat by lia.
    apply (spacing_nonzero V_list S_list Hlen Hgrid m). fold n. lia. }
  rewrite py_div_ok by exact Hd. cbn [bind].
  change (-1)%Z with (- Z.of_nat 1)%Z. change (-2)%Z with (- Z.of_nat 2)%Z.
  rewrite (getitem_from_end S_list 1 0), (getitem_from_end S_list 2 0) by lia.
  cbn [bind]. rewrite HS. cbn [Nat.sub].
  change 1%Z with (Z.of_nat 1). change 0%Z with (Z.of_nat 0).
  rewrite (getitem_app_l _ _ 1), (getitem_app_l _ _ 0)
    by (rewrite length_map, length_seq; lia).
  rewrite !getitem_map_seq_from by lia. cbn [bind Nat.add].
  rewrite (getitem_nth S_list 1 0), (getitem_nth S_list 0 0) by lia.
  cbn [bind].
  assert (Hd0 : nth 1 S_list 0 - nth 0 S_list 0 <> 0).
  { apply (spacing_nonzero V_list S_list Hlen Hgrid 0). fold n. lia. }
  rewrite py_div_ok by exact Hd0. cbn [bind]. unfold s.
  rewrite !Nat.sub_0_r. reflexivity.
Qed.

Lemma nth_map_seq_from {A : Type} (f : nat -> A) (a n i : nat) (dflt : A) :
  (i < n)%nat -> nth i (map f (seq a n)) dflt = f (a + i)%nat.
Proof.
  intros H. rewrite (nth_indep _ dflt (f 0%nat))
    by now rewrite length_map, length_seq.
  rewrite map_nth, seq_nth by exact H. reflexivity.
Qed.

(** X13: on lists of equal length [n >= 5] whose neighbouring grid points
    differ, [find_d2VdS2] returns [n] numbers: for [1 <= i <= n-2] the
    second difference [V[i-1] - 2*V[i] + V[i+1]] divided by one spacing
    [S[i+1] - S[i]], preceded and followed by a linear extension of its
    first two and last two values. *)
Theorem find_d2VdS2_on_grid (V_list S_list : list R) :
  List.length S_list = List.length V_list ->
  (5 <= List.length V_list)%nat ->
  distinct_neighbours S_list ->
  let n := List.length V_list in
  let b := bend V_list S_list in
  let s := fun i => nth i S_list 0 in
  exists d2VdS2_list : list R,
    find_d2VdS2 V_list S_list = Ok d2VdS2_list
    /\ List.length d2VdS2_list = n
    /\ nth 0 d2VdS2_list 0
       = b 1%nat - (s 1%nat - s 0%nat) * ((b 2%nat - b 1%nat) / (s 1%nat - s 0%nat))
    /\ (forall i, (1 <= i)%nat -> (i + 1 < n)%nat -> nth i d2VdS2_list 0 = b i)
    /\ nth (n - 1) d2VdS2_list 0
       = b (n - 2)%nat
         + (s (n - 1)%nat - s (n - 2)%nat)
           * ((b (n - 2)%nat - b (n - 3)%nat) / (s (n - 4)%nat - s (n - 5)%nat)).
Proof.
  intros Hlen Hn Hgrid n b s. eexists.
  split; [now apply find_d2VdS2_list|]. fold n b s.
  assert (Hl : List.length (map b (seq 1 (n - 2))) = (n - 2)%nat)
    by now rewrite length_map, length_seq.
  split; [|split; [reflexivity|split]].
  - cbn [List.length]. rewrite length_app, Hl. simpl. unfold n in *. lia.
  - intros i Hi1 Hi. destruct i as [|i']; [lia|]. cbn [nth].
    rewrite app_nth1 by lia. now rewrite nth_map_seq_from by lia.
  - replace (n - 1)%nat with (S (n - 2)) by (unfold n in *; lia). cbn [nth].
    rewrite app_nth2 by lia. rewrite Hl, Nat.sub_diag. reflexivity.
Qed.

Lemma find_d2VdS2_on_grid_witness :
  let V_list := [1; 4; 9; 16; 25] in
  let S_list := [1; 2; 3; 4; 5] in
  let n := List.length V_list in
  let b := bend V_list S_list in
  let s := fun i => nth i S_list 0 in
  exists d2VdS2_list : list R,
    find_d2VdS2 V_list S_list = Ok d2VdS2_list
    /\ List.length d2VdS2_list = n
    /\ nth 0 d2VdS2_list 0
       = b 1%nat - (s 1%nat - s 0%nat) * ((b 2%nat - b 1%nat) / (s 1%nat - s 0%nat))
    /\ (forall i, (1 <= i)%nat -> (i + 1 < n)%nat -> nth i d2VdS2_list 0 = b i)
    /\ nth (n - 1) d2VdS2_list 0
       = b (n - 2)%nat
         + (s (n - 1)%nat - s (n - 2)%nat)
           * ((b (n - 2)%nat - b (n - 3)%nat) / (s (n - 4)%nat - s (n - 5)%nat)).
Proof.
  apply (find_d2VdS2_on_grid [1; 4; 9; 16; 25] [1; 2; 3; 4; 5]).
  - reflexivity.
  - simpl. lia.
  - intros i Hi. simpl in Hi.
    destruct i as [|[|[|[|i]]]]; simpl; try lra; lia.
Defined.

Lemma find_dVdS_needs_two_points (V_list S_list : list R) :
  (List.length V_list <= 1)%nat -> find_dVdS V_list S_list = Raise IndexError.
Proof.
  intros H. destruct V_list as [|x [|y l]]; [reflexivity | reflexivity|].
  simpl in H. lia.
Qed.

Lemma find_dVdt_needs_two_points (V_list S_list : list R) (r sigma : R) :
  (List.length V_list <= 1)%nat ->
  find_dVdt V_list S_list r sigma = Raise IndexError.
Proof.
  intros H. unfold find_dVdt.
  now rewrite find_dVdS_needs_two_points by exact H.
Qed.

(** X14: lists too short for the extension raise [IndexError]:
    [find_dVdS] and [find_dVdt] on fewer than two values, [find_d2VdS2] on
    fewer than three, whatever the grid is. *)
Theorem difference_quotients_need_points (V_list S_list : list R) (r sigma : R) :
  ((List.length V_list <= 1)%nat ->
     find_dVdS V_list S_list = Raise IndexError
     /\ find_dVdt V_list S_list r sigma = Raise IndexError)
  /\ ((List.length V_list <= 2)%nat ->
        find_d2VdS2 V_list S_list = Raise IndexError).
Proof.
  split.
  - intros H. split.
    + now apply find_dVdS_needs_two_points.
    + now apply find_dVdt_needs_two_points.
  - intros H. destruct V_list as [|x [|y [|z l]]];
      [reflexivity | reflexivity | reflexivity|]. simpl in H. lia.
Qed.

Lemma difference_quotients_need_points_witness :
  (find_dVdS [10] [115] = Raise IndexError
   /\ find_dVdt [10] [115] (5 / 100) (1 / 10) = Raise IndexError)
  /\ find_d2VdS2 [10; 0] [115; 125] = Raise IndexError.
Proof.
  split.
  - apply (difference_quotients_need_points [10] [115] (5 / 100) (1 / 10)).
    simpl. lia.
  - apply (difference_quotients_need_points [10; 0] [115; 125] 0 0).
    simpl. lia.
Defined.

(** X15: below the lengths of X12 and X13 the subscripts of the extension
    wrap around.  On two points [find_dVdS] repeats the one slope; on three
    points it extends with the spacing [S[0] - S[2]]; [find_d2VdS2] on
    three points repeats the one second difference. *)
Theorem difference_quotients_on_short_grids (v0 v1 v2 s0 s1 s2 : R) :
  s1 <> s0 -> s2 <> s1 -> s0 <> s2 ->
  let g0 := (v1 - v0) / (s1 - s0) in
  let g1 := (v2 - v1) / (s2 - s1) in
  let c := (v0 - 2 * v1 + v2) / (s2 - s1) in
  find_dVdS [v0; v1] [s0; s1] = Ok [g0; g0]
  /\ find_dVdS [v0; v1; v2] [s0; s1; s2]
     = Ok [g0; g1; g1 + (s2 - s1) * ((g1 - g0) / (s0 - s2))]
  /\ find_d2VdS2 [v0; v1; v2] [s0; s1; s2] = Ok [c; c; c].
Proof.
  intros H10 H21 H02 g0 g1 c. split; [|split].
  - unfold find_dVdS. run_script. unfold g0. f_equal.
    repeat (apply f_equal2; [field; lra|]). reflexivity.
  - unfold find_dVdS. run_script. reflexivity.
  - unfold find_d2VdS2. run_script. unfold c. f_equal.
    repeat (apply f_equal2; [field; lra|]). reflexivity.
Qed.

Lemma difference_quotients_on_short_grids_witness :
  let g0 := (4 - 1) / (2 - 1) in
  let g1 := (9 - 4) / (3 - 2) in
  let c := (1 - 2 * 4 + 9) / (3 - 2) in
  find_dVdS [1; 4] [1; 2] = Ok [g0; g0]
  /\ find_dVdS [1; 4; 9] [1; 2; 3]
     = Ok [g0; g1; g1 + (3 - 2) * ((g1 - g0) / (1 - 3))]
  /\ find_d2VdS2 [1; 4; 9] [1; 2; 3] = Ok [c; c; c].
Proof.
  apply (difference_quotients_on_short_grids 1 4 9 1 2 3); lra.
Defined.

(** ** One backward step of the solver *)

Lemma map_seq_last {A : Type} (f : nat -> A) (n : nat) :
  map f (seq 0 (S n)) = map f (seq 0 n) ++ [f n].
Proof. now rewrite seq_S, map_app. Qed.

Lemma derivative_lists_on_grid (V_list S_list : list R) :
  List.length S_list = List.length V_list ->
  (5 <= List.length V_list)%nat ->
  distinct_neighbours S_list ->
  exists dVdS_list d2VdS2_list : list R,
    find_dVdS V_list S_list = Ok dVdS_list
    /\ find_d2VdS2 V_list S_list = Ok d2VdS2_list
    /\ List.length dVdS_list = List.length V_list
    /\ List.length d2VdS2_list = List.length V_list.
Proof.
  intros Hlen Hn Hgrid. do 2 eexists.
  split; [apply find_dVdS_list; try assumption; lia|].
  split; [now apply find_d2VdS2_list|]. cbv zeta. split.
  - rewrite length_app, length_map, length_seq. simpl. lia.
  - cbn [List.length]. rewrite length_app, length_map, length_seq. simpl. lia.
Qed.

Lemma find_dVdt_returns (V_list S_list : list R) (r sigma : R) :
  List.length S_list = List.length V_list ->
  (5 <= List.length V_list)%nat ->
  distinct_neighbours S_list ->
  exists dVdt_list : list R,
    find_dVdt V_list S_list r sigma = Ok dVdt_list
    /\ List.length dVdt_list = List.length V_list.
Proof.
  intros Hlen Hn Hgrid.
  destruct (derivative_lists_on_grid V_list S_list Hlen Hn Hgrid)
    as (dv & d2 & H1 & H2 & L1 & L2).
  eexists. split; [exact (find_dVdt_entries _ _ _ _ r sigma H1 H2 Hlen L1 L2)|].
  now rewrite length_map, length_seq.
Qed.

(** X16: on lists of equal length [n >= 5] whose neighbouring grid points
    differ, [find_dVdt] raises nothing, whatever the values are, and
    returns [n] numbers, entry [i] being
    [r*V[i] - r*S[i]*dVdS[i] - 0.5*sigma*sigma*S[i]*d2VdS2[i]] on the lists
    of [find_dVdS] and [find_d2VdS2]. *)
Theorem find_dVdt_on_grid (V_list S_list : list R) (r sigma : R) :
  List.length S_list = List.length V_list ->
  (5 <= List.length V_list)%nat ->
  distinct_neighbours S_list ->
  exists dVdS_list d2VdS2_list dVdt_list : list R,
    find_dVdS V_list S_list = Ok dVdS_list
    /\ find_d2VdS2 V_list S_list = Ok d2VdS2_list
    /\ find_dVdt V_list S_list r sigma = Ok dVdt_list
    /\ List.length dVdS_list = List.length V_list
    /\ List.length d2VdS2_list = List.length V_list
    /\ List.length dVdt_list = List.length V_list
    /\ forall i, (i < List.length V_list)%nat ->
         nth i dVdt_list 0
         = r * nth i V_list 0 - r * nth i S_list 0 * nth i dVdS_list 0
           - 0.5 * sigma * sigma * nth i S_list 0 * nth i d2VdS2_list 0.
Proof.
  intros Hlen Hn Hgrid.
  destruct (derivative_lists_on_grid V_list S_list Hlen Hn Hgrid)
    as (dVdS_list & d2VdS2_list & H1 & H2 & L1 & L2).
  exists dVdS_list, d2VdS2_list. eexists.
  split; [exact H1|]. split; [exact H2|].
  split; [exact (find_dVdt_entries _ _ _ _ r sigma H1 H2 Hlen L1 L2)|].
  split; [exact L1|]. split; [exact L2|].
  split; [now rewrite length_map, length_seq|].
  intros i Hi. rewrite nth_map_seq by exact Hi. ring.
Qed.

Lemma find_dVdt_on_grid_witness :
  exists dVdS_list d2VdS2_list dVdt_list : list R,
    find_dVdS [1; 4; 9; 16; 25] [1; 2; 3; 4; 5] = Ok dVdS_list
    /\ find_d2VdS2 [1; 4; 9; 16; 25] [1; 2; 3; 4; 5] = Ok d2VdS2_list
    /\ find_dVdt [1; 4; 9; 16; 25] [1; 2; 3; 4; 5] (5 / 100) (1 / 10)
       = Ok dVdt_list
    /\ List.length dVdS_list = List.length [1; 4; 9; 16; 25]
    /\ List.length d2VdS2_list = List.length [1; 4; 9; 16; 25]
    /\ List.length dVdt_list = List.length [1; 4; 9; 16; 25]
    /\ forall i, (i < List.length [1; 4; 9; 16; 25])%nat ->
         nth i dVdt_list 0
         = 5 / 100 * nth i [1; 4; 9; 16; 25] 0
           - 5 / 100 * nth i [1; 2; 3; 4; 5] 0 * nth i dVdS_list 0
           - 0.5 * (1 / 10) * (1 / 10) * nth i [1; 2; 3; 4; 5] 0
             * nth i d2VdS2_list 0.
Proof.
  apply (find_dVdt_on_grid [1; 4; 9; 16; 25] [1; 2; 3; 4; 5] (5 / 100) (1 / 10)).
  - reflexivity.
  - simpl. lia.
  - intros i Hi. simpl in Hi.
    destruct i as [|[|[|[|i]]]]; simpl; try lra; lia.
Defined.

Lemma for_each_raises {A St : Type} (body : A -> St -> result St)
      (l1 l2 : list A) (x : A) (s s1 : St) (e : exn) :
  for_each body l1 s = Ok s1 -> body x s1 = Raise e ->
  for_each body (l1 ++ x :: l2) s = Raise e.
Proof.
  intros H1 Hx. rewrite for_each_app, H1. cbn [bind for_each].
  now rewrite Hx.
Qed.

Lemma update_V_prefix (V_list dVdt_list : list R) (dt : R) (n : nat) :
  (n <= List.length V_list)%nat -> (n <= List.length dVdt_list)%nat ->
  for_each
    (fun i new_V_list =>
       V <- getitem V_list (Z.of_nat i) ;;
       dVdt <- getitem dVdt_list (Z.of_nat i) ;;
       Ok (new_V_list ++ [V - dVdt * dt]))
    (seq 0 n) []
  = Ok (map (fun i => nth i V_list 0 - nth i dVdt_list 0 * dt) (seq 0 n)).
Proof.
  intros HV Hd. apply (for_each_append_ok _ _ _ []).
  intros i acc Hi. apply in_seq in Hi.
  rewrite (getitem_nth V_list i 0), (getitem_nth dVdt_list i 0) by lia.
  reflexivity.
Qed.

Lemma update_V_ok (V_list dVdt_list : list R) (dt : R) :
  (List.length V_list <= List.length dVdt_list)%nat ->
  update_V V_list dVdt_list dt
  = Ok (map (fun i => nth i V_list 0 - nth i dVdt_list 0 * dt)
            (seq 0 (List.length V_list))).
Proof.
  intros H. unfold update_V, range. apply update_V_prefix; lia.
Qed.

(** X17: [update_V] returns [V[i] - dVdt[i]*dt] for every [i] when
    [dVdt_list] is at least as long as [V_list], and raises [IndexError]
    when it is shorter. *)
Theorem update_V_entries (V_list dVdt_list : list R) (dt : R) :
  ((List.length V_list <= List.length dVdt_list)%nat ->
     update_V V_list dVdt_list dt
     = Ok (map (fun i => nth i V_list 0 - nth i dVdt_list 0 * dt)
               (seq 0 (List.length V_list))))
  /\ ((List.length dVdt_list < List.length V_list)%nat ->
        update_V V_list dVdt_list dt = Raise IndexError).
Proof.
  split; intros H.
  - now apply update_V_ok.
  - unfold update_V, range.
    set (m := List.length dVdt_list) in *.
    replace (List.length V_list)
      with (m + S (List.length V_list - S m))%nat by lia.
    rewrite seq_app. cbn [seq]. rewrite Nat.add_0_l.
    eapply for_each_raises; [apply update_V_prefix; lia|].
    rewrite (getitem_nth V_list m 0) by lia. cbn [bind].
    now rewrite getitem_past_end by (fold m; lia).
Qed.

Lemma update_V_entries_witness :
  update_V [0; 10; 0] [1; 2; 3] (1 / 100)
  = Ok (map (fun i => nth i [0; 10; 0] 0 - nth i [1; 2; 3] 0 * (1 / 100))
            (seq 0 (List.length [0; 10; 0])))
  /\ update_V [0; 10; 0] [1; 2] (1 / 100) = Raise IndexError.
Proof.
  split.
  - apply (update_V_entries [0; 10; 0] [1; 2; 3] (1 / 100)). simpl. lia.
  - apply (update_V_entries [0; 10; 0] [1; 2] (1 / 100)). simpl. lia.
Defined.

Lemma all_equal_repeat (l : list R) (c : R) (m : nat) :
  List.length l = m -> Forall (eq c) l -> l = repeat c m.
Proof. intros <- H. now apply Forall_eq_repeat. Qed.

Section UniformGrid.

Variables (s0 h a b : R) (n : nat).
Hypothesis step_nonzero : h <> 0.
Hypothesis enough_points : (5 <= n)%nat.

Let S_list := map (fun i => s0 + INR i * h) (seq 0 n).
Let V_list := map (fun i => a * (s0 + INR i * h) + b) (seq 0 n).

Lemma uniform_lengths :
  List.length S_list = n /\ List.length V_list = n.
Proof. unfold S_list, V_list. now rewrite !length_map, !length_seq. Qed.

Lemma uniform_S (i : nat) : (i < n)%nat -> nth i S_list 0 = s0 + INR i * h.
Proof. intros H. unfold S_list. now rewrite nth_map_seq. Qed.

Lemma uniform_V (i : nat) :
  (i < n)%nat -> nth i V_list 0 = a * (s0 + INR i * h) + b.
Proof. intros H. unfold V_list. now rewrite nth_map_seq. Qed.

Lemma uniform_distinct : distinct_neighbours S_list.
Proof.
  intros i Hi. destruct uniform_lengths as [HS _]. rewrite HS in Hi.
  rewrite !uniform_S by lia. rewrite plus_INR. simpl INR. intros Heq.
  apply step_nonzero. lra.
Qed.

Lemma uniform_slope (i : nat) :
  (i + 1 < n)%nat -> slope V_list S_list i = a.
Proof.
  intros H. unfold slope. rewrite !uniform_S, !uniform_V by lia.
  rewrite plus_INR. simpl INR. field.
  intros Heq. apply step_nonzero. lra.
Qed.

Lemma uniform_bend (i : nat) :
  (1 <= i)%nat -> (i + 1 < n)%nat -> bend V_list S_list i = 0.
Proof.
  intros H1 H. unfold bend. rewrite !uniform_S, !uniform_V by lia.
  rewrite plus_INR, minus_INR by lia. simpl INR. field.
  intros Heq. apply step_nonzero. lra.
Qed.

Lemma uniform_dVdS : find_dVdS V_list S_list = Ok (repeat a n).
Proof.
  destruct uniform_lengths as [HS HV].
  rewrite find_dVdS_list
    by (try apply uniform_distinct; rewrite ?HS, ?HV; lia).
  cbv zeta. rewrite HV. f_equal.
  apply all_equal_repeat;
    [rewrite length_app, length_map, length_seq; simpl; lia|].
  apply Forall_app. split.
  - apply Forall_forall. intros x Hx. apply in_map_iff in Hx.
    destruct Hx as (i & <- & Hi). apply in_seq in Hi.
    symmetry. apply uniform_slope. lia.
  - constructor; [|constructor].
    rewrite !uniform_slope by lia. rewrite !uniform_S by lia.
    replace (a - a) with 0 by ring. unfold Rdiv. ring.
Qed.

Lemma uniform_d2VdS2 : find_d2VdS2 V_list S_list = Ok (repeat 0 n).
Proof.
  destruct uniform_lengths as [HS HV].
  rewrite find_d2VdS2_list
    by (try apply uniform_distinct; rewrite ?HS, ?HV; lia).
  cbv zeta. rewrite HV. f_equal.
  apply all_equal_repeat;
    [cbn [List.length]; rewrite length_app, length_map, length_seq; simpl; lia|].
  constructor; [|apply Forall_app; split].
  - rewrite !uniform_bend by lia. unfold Rdiv. ring.
  - apply Forall_forall. intros x Hx. apply in_map_iff in Hx.
    destruct Hx as (i & <- & Hi). apply in_seq in Hi.
    symmetry. apply uniform_bend; lia.
  - constructor; [|constructor].
    rewrite !uniform_bend by lia. unfold Rdiv. ring.
Qed.

Lemma nth_repeat_lt (c : R) (i : nat) :
  (i < n)%nat -> nth i (repeat c n) 0 = c.
Proof.
  intros H. rewrite (nth_indep _ 0 c) by now rewrite repeat_length.
  apply nth_repeat.
Qed.

Lemma uniform_dVdt (r sigma : R) :
  find_dVdt V_list S_list r sigma = Ok (repeat (r * b) n).
Proof.
  destruct uniform_lengths as [HS HV].
  rewrite (find_dVdt_entries V_list S_list (repeat a n) (repeat 0 n))
    by (rewrite ?repeat_length, ?HS, ?HV;
        auto using uniform_dVdS, uniform_d2VdS2).
  rewrite HV. f_equal.
  apply all_equal_repeat; [now rewrite length_map, length_seq|].
  apply Forall_forall. intros x Hx. apply in_map_iff in Hx.
  destruct Hx as (i & <- & Hi). apply in_seq in Hi.
  rewrite uniform_S, uniform_V by lia.
  rewrite !nth_repeat_lt by lia. ring.
Qed.

Lemma uniform_step (r sigma dt : R) :
  (dVdt_list <- find_dVdt V_list S_list r sigma ;;
   update_V V_list dVdt_list dt)
  = Ok (map (fun i => a * (s0 + INR i * h) + b * (1 - r * dt)) (seq 0 n)).
Proof.
  destruct uniform_lengths as [HS HV].
  rewrite uniform_dVdt. cbn [bind].
  rewrite update_V_ok by (rewrite repeat_length; lia).
  rewrite HV. f_equal. apply map_ext_in. intros i Hi. apply in_seq in Hi.
  rewrite uniform_V by lia. rewrite nth_repeat_lt by lia. ring.
Qed.

End UniformGrid.

(** X18: on an evenly spaced grid of [n >= 5] points [s0 + i*h], [h <> 0],
    values that are linear in the price, [V[i] = a*S[i] + b], are stepped
    exactly: [find_dVdS] returns [a] everywhere, [find_d2VdS2] returns [0]
    everywhere, [find_dVdt] returns [r*b] everywhere, and one backward step
    ([find_dVdt] then [update_V]) keeps the stock part and shrinks the cash
    part to [b*(1 - r*dt)]. *)
Theorem linear_values_are_stepped_exactly
        (s0 h a b r sigma dt : R) (n : nat) :
  h <> 0 -> (5 <= n)%nat ->
  let S_list := map (fun i => s0 + INR i * h) (seq 0 n) in
  let V_list := map (fun i => a * (s0 + INR i * h) + b) (seq 0 n) in
  find_dVdS V_list S_list = Ok (repeat a n)
  /\ find_d2VdS2 V_list S_list = Ok (repeat 0 n)
  /\ find_dVdt V_list S_list r sigma = Ok (repeat (r * b) n)
  /\ (dVdt_list <- find_dVdt V_list S_list r sigma ;;
      update_V V_list dVdt_list dt)
     = Ok (map (fun i => a * (s0 + INR i * h) + b * (1 - r * dt)) (seq 0 n)).
Proof.
  intros Hh Hn S_list V_list.
  split; [now apply uniform_dVdS|]. split; [now apply uniform_d2VdS2|].
  split; [now apply uniform_dVdt | now apply uniform_step].
Qed.

Lemma linear_values_are_stepped_exactly_witness :
  let S_list := map (fun i => 50 + INR i * (1 / 4)) (seq 0 400) in
  let V_list := map (fun i => 1 * (50 + INR i * (1 / 4)) + - 110) (seq 0 400) in
  find_dVdS V_list S_list = Ok (repeat 1 400)
  /\ find_d2VdS2 V_list S_list = Ok (repeat 0 400)
  /\ find_dVdt V_list S_list (5 / 100) (1 / 10) = Ok (repeat (5 / 100 * - 110) 400)
  /\ (dVdt_list <- find_dVdt V_list S_list (5 / 100) (1 / 10) ;;
      update_V V_list dVdt_list (1 / 100))
     = Ok (map (fun i => 1 * (50 + INR i * (1 / 4))
                         + - 110 * (1 - 5 / 100 * (1 / 100))) (seq 0 400)).
Proof.
  apply (linear_values_are_stepped_exactly
           50 (1 / 4) 1 (- 110) (5 / 100) (1 / 10) (1 / 100) 400); [lra | lia].
Defined.

(** ** The whole solver *)

Lemma find_V_expiry_map (S_list : list R) (f : R -> R) :
  find_V_expiry S_list f = map f S_list.
Proof.
  unfold find_V_expiry.
  assert (H : forall acc, fold_left (fun V_expiry S => V_expiry ++ [f S])
                                    S_list acc = acc ++ map f S_list).
  { induction S_list as [|x l IH]; intros acc; simpl.
    - now rewrite app_nil_r.
    - rewrite IH, <- app_assoc. reflexivity. }
  apply (H []).
Qed.

Lemma solver_pass_on_grid (S_list : list R) (r sigma dt : R) (k : nat)
      (V_data : list (list R)) (t_list V_now : list R) (t_now : R) :
  (5 <= List.length S_list)%nat -> distinct_neighbours S_list ->
  List.length V_now = List.length S_list ->
  exists V_new,
    (dVdt_list <- find_dVdt V_now S_list r sigma ;; update_V V_now dVdt_list dt)
    = Ok V_new
    /\ List.length V_new = List.length S_list
    /\ solver_pass S_list r sigma dt k (V_data, t_list, V_now, t_now)
       = Ok (V_data ++ [V_new], t_list ++ [t_now + dt], V_new, t_now + dt).
Proof.
  intros Hn Hgrid Hlen.
  destruct (find_dVdt_returns V_now S_list r sigma)
    as (dVdt & Hd & Hl); [lia | lia | exact Hgrid|].
  pose proof (update_V_ok V_now dVdt dt ltac:(lia)) as Hu.
  eexists. unfold solver_pass. rewrite Hd. cbn [bind]. rewrite Hu. cbn [bind].
  split; [reflexivity|]. split; [|reflexivity].
  rewrite length_map, length_seq. exact Hlen.
Qed.

Lemma solver_loop_on_grid (S_list : list R) (r sigma dt : R) (k : nat) :
  (5 <= List.length S_list)%nat -> distinct_neighbours S_list ->
  exists (V_data : list (list R)) (V_now : list R),
    for_each (solver_pass S_list r sigma dt) (range k)
             ([map BlackScholes.payoff S_list], [0],
              map BlackScholes.payoff S_list, 0)
    = Ok (V_data, map (fun i => INR i * dt) (seq 0 (k + 1)), V_now, INR k * dt)
    /\ List.length V_data = (k + 1)%nat
    /\ nth 0 V_data [] = map BlackScholes.payoff S_list
    /\ nth k V_data [] = V_now
    /\ Forall (fun V => List.length V = List.length S_list) V_data
    /\ forall j, (j < k)%nat ->
         (dVdt_list <- find_dVdt (nth j V_data []) S_list r sigma ;;
          update_V (nth j V_data []) dVdt_list dt)
         = Ok (nth (j + 1) V_data []).
Proof.
  intros Hn Hgrid. induction k as [|k IH].
  - exists [map BlackScholes.payoff S_list], (map BlackScholes.payoff S_list).
    cbn [range seq for_each map Nat.add]. simpl INR. rewrite Rmult_0_l.
    repeat split; try reflexivity.
    + constructor; [now rewrite length_map | constructor].
    + intros j Hj. lia.
  - destruct IH as (V_data & V_now & Hrun & Hlen & Hhead & Hlast & Hall & Hstep).
    assert (Hnow : List.length V_now = List.length S_list).
    { rewrite <- Hlast. rewrite Forall_forall in Hall. apply Hall.
      apply nth_In. lia. }
    destruct (solver_pass_on_grid S_list r sigma dt k V_data
                (map (fun i => INR i * dt) (seq 0 (k + 1))) V_now (INR k * dt)
                Hn Hgrid Hnow) as (V_new & Hv & Hvl & Hpass).
    exists (V_data ++ [V_new]), V_new.
    replace (range (S k)) with (range k ++ [k])
      by (unfold range; now rewrite seq_S).
    rewrite for_each_app, Hrun. cbn [bind for_each]. rewrite Hpass.
    assert (Ht : INR k * dt + dt = INR (S k) * dt) by (rewrite S_INR; ring).
    assert (Hts : map (fun i => INR i * dt) (seq 0 (k + 1)) ++ [INR k * dt + dt]
                  = map (fun i => INR i * dt) (seq 0 (S k + 1))).
    { replace (S k + 1)%nat with (S (k + 1)) by lia.
      rewrite map_seq_last. replace (k + 1)%nat with (S k) by lia.
      now rewrite Ht. }
    rewrite Hts, Ht. split; [reflexivity|].
    split; [rewrite length_app; simpl; lia|].
    split; [rewrite app_nth1 by lia; exact Hhead|].
    split.
    { rewrite app_nth2 by lia. replace (S k - List.length V_data)%nat
        with 0%nat by lia. reflexivity. }
    split.
    { apply Forall_app. split; [exact Hall|]. constructor; [exact Hvl|constructor]. }
    intros j Hj. destruct (Nat.eq_dec j k) as [->|Hne].
    + rewrite app_nth1 by lia. rewrite Hlast.
      rewrite app_nth2 by lia.
      replace (k + 1 - List.length V_data)%nat with 0%nat by lia.
      exact Hv.
    + rewrite !app_nth1 by lia. apply Hstep. lia.
Qed.

Lemma find_option_value_unfold (S_list : list R) (r sigma : R) (steps : nat)
      (dt : R) :
  find_option_value S_list r sigma steps dt
  = (' (V_data, t_list, _, _) <-
       for_each (solver_pass S_list r sigma dt) (range steps)
                ([map BlackScholes.payoff S_list], [0],
                 map BlackScholes.payoff S_list, 0) ;;
     Ok (V_data, t_list)).
Proof.
  unfold find_option_value. rewrite find_V_expiry_map. reflexivity.
Qed.

(** X19: on a grid of at least five points whose neighbours differ,
    [find_option_value] raises nothing: it returns [steps + 1] value lists
    of the grid's length, the first being the payoff at every grid point
    and each next one the explicit step [V - dVdt*dt] of the one before,
    together with the times [0, dt, 2*dt, ..., steps*dt]. *)
Theorem find_option_value_on_grid (S_list : list R) (r sigma : R)
        (steps : nat) (dt : R) :
  (5 <= List.length S_list)%nat -> distinct_neighbours S_list ->
  exists (V_data : list (list R)) (t_list : list R),
    find_option_value S_list r sigma steps dt = Ok (V_data, t_list)
    /\ List.length V_data = (steps + 1)%nat
    /\ t_list = map (fun i => INR i * dt) (seq 0 (steps + 1))
    /\ nth 0 V_data [] = map BlackScholes.payoff S_list
    /\ Forall (fun V => List.length V = List.length S_list) V_data
    /\ forall j, (j < steps)%nat ->
         (dVdt_list <- find_dVdt (nth j V_data []) S_list r sigma ;;
          update_V (nth j V_data []) dVdt_list dt)
         = Ok (nth (j + 1) V_data []).
Proof.
  intros Hn Hgrid.
  destruct (solver_loop_on_grid S_list r sigma dt steps Hn Hgrid)
    as (V_data & V_now & Hrun & Hlen & Hhead & _ & Hall & Hstep).
  exists V_data, (map (fun i => INR i * dt) (seq 0 (steps + 1))).
  rewrite find_option_value_unfold, Hrun. cbn [bind].
  repeat split; assumption.
Qed.

Lemma find_option_value_on_grid_witness :
  exists (V_data : list (list R)) (t_list : list R),
    find_option_value [100; 105; 110; 115; 120; 125] (5 / 100) (1 / 10) 1000
                      (1 / 100) = Ok (V_data, t_list)
    /\ List.length V_data = (1000 + 1)%nat
    /\ t_list = map (fun i => INR i * (1 / 100)) (seq 0 (1000 + 1))
    /\ nth 0 V_data [] = map BlackScholes.payoff [100; 105; 110; 115; 120; 125]
    /\ Forall (fun V => List.length V
                        = List.length [100; 105; 110; 115; 120; 125]) V_data
    /\ forall j, (j < 1000)%nat ->
         (dVdt_list <- find_dVdt (nth j V_data [])
                                 [100; 105; 110; 115; 120; 125]
                                 (5 / 100) (1 / 10) ;;
          update_V (nth j V_data []) dVdt_list (1 / 100))
         = Ok (nth (j + 1) V_data []).
Proof.
  apply (find_option_value_on_grid [100; 105; 110; 115; 120; 125]
                                   (5 / 100) (1 / 10) 1000 (1 / 100)).
  - simpl. lia.
  - intros i Hi. simpl in Hi.
    destruct i as [|[|[|[|[|i]]]]]; simpl; try lra; lia.
Defined.

(** X20: with [steps = 0] [find_option_value] returns the payoff list and
    the time [0] for any grid, the empty one included; with [steps >= 1]
    and a grid of at most one point the first step raises [IndexError]. *)
Theorem find_option_value_edges (S_list : list R) (r sigma dt : R) :
  find_option_value S_list r sigma 0 dt
  = Ok ([map BlackScholes.payoff S_list], [0])
  /\ forall steps, (1 <= steps)%nat -> (List.length S_list <= 1)%nat ->
       find_option_value S_list r sigma steps dt = Raise IndexError.
Proof.
  split.
  - rewrite find_option_value_unfold. reflexivity.
  - intros steps Hs Hl. rewrite find_option_value_unfold.
    destruct steps as [|k]; [lia|].
    unfold range. cbn [seq for_each]. unfold solver_pass at 1.
    rewrite find_dVdt_needs_two_points by (rewrite length_map; lia).
    reflexivity.
Qed.

Lemma find_option_value_edges_witness :
  find_option_value [] (5 / 100) (1 / 10) 0 (1 / 100)
  = Ok ([map BlackScholes.payoff []], [0])
  /\ find_option_value [115] (5 / 100) (1 / 10) 3 (1 / 100) = Raise IndexError.
Proof.
  split.
  - apply (find_option_value_edges [] (5 / 100) (1 / 10) (1 / 100)).
  - apply (find_option_value_edges [115] (5 / 100) (1 / 10) (1 / 100));
      simpl; lia.
Defined.

(** ** One simulated path *)

Lemma find_stock_price_loop (gauss : nat -> R) (S_0 r sigma dt : R) (k : nat) :
  for_each
    (fun i (st : list R * list R * R * R) =>
       let '(S_, t, S_now, t_now) := st in
       let drift := r * S_now * dt in
       let vol := sigma * S_now * (0 + Binomial.np_sqrt dt * gauss i) in
       let dS := drift + vol in
       let S_now := S_now + dS in
       let t_now := t_now + dt in
       Ok (S_ ++ [S_now], t ++ [t_now], S_now, t_now))
    (range k) ([S_0], [0], S_0, 0)
  = Ok (map (gbm gauss S_0 r sigma dt) (seq 0 (k + 1)),
        map (fun i => INR i * dt) (seq 0 (k + 1)),
        gbm gauss S_0 r sigma dt k, INR k * dt).
Proof.
  induction k as [|k IH].
  - cbn [range seq for_each map Nat.add gbm]. simpl INR.
    now rewrite Rmult_0_l.
  - replace (range (S k)) with (range k ++ [k])
      by (unfold range; now rewrite seq_S).
    rewrite for_each_app, IH. cbn [bind for_each].
    replace (S k + 1)%nat with (S (k + 1)) by lia.
    rewrite !map_seq_last. replace (k + 1)%nat with (S k) by lia.
    rewrite S_INR. cbn [gbm]. unfold Binomial.np_sqrt.
    replace (INR k * dt + dt) with ((INR k + 1) * dt) by ring.
    reflexivity.
Qed.

Lemma find_stock_price_ok (gauss : nat -> R) (S_0 r sigma T : R) (steps : nat) :
  (1 <= steps)%nat ->
  find_stock_price gauss S_0 r sigma T steps
  = Ok (map (gbm gauss S_0 r sigma (T / INR steps)) (seq 0 (steps + 1)),
        map (fun i => INR i * (T / INR steps)) (seq 0 (steps + 1))).
Proof.
  intros H. unfold find_stock_price.
  rewrite py_div_ok by (apply not_0_INR; lia). cbn [bind].
  now rewrite find_stock_price_loop.
Qed.

(** X21: for [0 <= T] and [steps >= 1] [find_stock_price] returns [steps + 1] prices
    and [steps + 1] times: the prices start at [S_0] and each is the one
    before times [1 + r*dt + sigma*sqrt(dt)*z] for the variate [z] drawn at
    that step; the times are [i*dt] and end at [T]. *)
Theorem find_stock_price_path (gauss : nat -> R) (S_0 r sigma T : R)
        (steps : nat) :
  0 <= T -> (1 <= steps)%nat ->
  let dt := T / INR steps in
  exists S_ t : list R,
    find_stock_price gauss S_0 r sigma T steps = Ok (S_, t)
    /\ List.length S_ = (steps + 1)%nat
    /\ List.length t = (steps + 1)%nat
    /\ nth 0 S_ 0 = S_0
    /\ (forall k, (k < steps)%nat ->
          nth (k + 1) S_ 0
          = nth k S_ 0 * (1 + r * dt + sigma * sqrt dt * gauss k))
    /\ (forall k, (k <= steps)%nat -> nth k t 0 = INR k * dt)
    /\ nth steps t 0 = T.
Proof.
  intros _ H dt. do 2 eexists.
  split; [now apply find_stock_price_ok|].
  split; [now rewrite length_map, length_seq|].
  split; [now rewrite length_map, length_seq|].
  split; [now rewrite nth_map_seq by lia|].
  split; [|split].
  - intros k Hk. rewrite !nth_map_seq by lia.
    replace (k + 1)%nat with (S k) by lia. cbn [gbm]. fold dt. ring.
  - intros k Hk. now rewrite nth_map_seq by lia.
  - rewrite nth_map_seq by lia. unfold Rdiv.
    assert (INR steps <> 0) by (apply not_0_INR; lia). field. assumption.
Qed.

Lemma find_stock_price_path_witness :
  let gauss := fun i : nat => if Nat.even i then 1 else - 1 in
  let dt := 5 / INR 100 in
  exists S_ t : list R,
    find_stock_price gauss 100 (15 / 100) (5 / 100) 5 100 = Ok (S_, t)
    /\ List.length S_ = (100 + 1)%nat
    /\ List.length t = (100 + 1)%nat
    /\ nth 0 S_ 0 = 100
    /\ (forall k, (k < 100)%nat ->
          nth (k + 1) S_ 0
          = nth k S_ 0 * (1 + 15 / 100 * dt + 5 / 100 * sqrt dt * gauss k))
    /\ (forall k, (k <= 100)%nat -> nth k t 0 = INR k * dt)
    /\ nth 100 t 0 = 5.
Proof.
  apply (find_stock_price_path (fun i : nat => if Nat.even i then 1 else - 1)
                               100 (15 / 100) (5 / 100) 5 100); [lra | lia].
Defined.

Lemma gbm_zero_horizon (gauss : nat -> R) (S_0 r sigma : R) (k : nat) :
  gbm gauss S_0 r sigma 0 k = S_0.
Proof.
  induction k as [|k IH]; [reflexivity|]. cbn [gbm]. rewrite IH, sqrt_0. ring.
Qed.

Lemma find_stock_price_flat (gauss : nat -> R) (S_0 r sigma : R) (steps : nat) :
  (1 <= steps)%nat ->
  find_stock_price gauss S_0 r sigma 0 steps
  = Ok (repeat S_0 (steps + 1), repeat 0 (steps + 1)).
Proof.
  intros H. rewrite find_stock_price_ok by exact H.
  replace (0 / INR steps) with 0 by (unfold Rdiv; ring).
  f_equal. f_equal.
  - apply all_equal_repeat; [now rewrite length_map, length_seq|].
    apply Forall_forall. intros x Hx. apply in_map_iff in Hx.
    destruct Hx as (i & <- & _). now rewrite gbm_zero_horizon.
  - apply all_equal_repeat; [now rewrite length_map, length_seq|].
    apply Forall_forall. intros x Hx. apply in_map_iff in Hx.
    destruct Hx as (i & <- & _). ring.
Qed.

(** X22: [find_stock_price] raises [ZeroDivisionError] for [steps = 0];
    for [T = 0] and [steps >= 1] the path is flat whatever is drawn, every
    price being [S_0] and every time [0]. *)
Theorem find_stock_price_edges (gauss : nat -> R) (S_0 r sigma T : R)
        (steps : nat) :
  find_stock_price gauss S_0 r sigma T 0 = Raise ZeroDivisionError
  /\ ((1 <= steps)%nat ->
        find_stock_price gauss S_0 r sigma 0 steps
        = Ok (repeat S_0 (steps + 1), repeat 0 (steps + 1))).
Proof.
  split.
  - unfold find_stock_price, py_div. simpl INR.
    destruct (Req_dec_T 0 0) as [_|H]; [reflexivity | now contradiction H].
  - intros H. now apply find_stock_price_flat.
Qed.

Lemma find_stock_price_edges_witness :
  find_stock_price (fun _ => 1) 100 (1 / 10) (1 / 10) 10 0
  = Raise ZeroDivisionError
  /\ find_stock_price (fun _ => 1) 100 (1 / 10) (1 / 10) 0 25
     = Ok (repeat 100 (25 + 1), repeat 0 (25 + 1)).
Proof.
  split.
  - apply (find_stock_price_edges (fun _ => 1) 100 (1 / 10) (1 / 10) 10 0).
  - apply (find_stock_price_edges (fun _ => 1) 100 (1 / 10) (1 / 10) 10 25).
    lia.
Defined.

Lemma gbm_step (gauss : nat -> R) (S_0 r sigma dt : R) (k : nat) :
  gbm gauss S_0 r sigma dt (S k)
  = gbm gauss S_0 r sigma dt k * (1 + r * dt + sigma * sqrt dt * gauss k).
Proof. cbn [gbm]. ring. Qed.




(** X24: for [0 <= T], [steps >= 1] and [S_0 > 0] every price of the path is
    positive exactly when every step factor
    [1 + r*dt + sigma*sqrt(dt)*z] is positive: a single draw below that
    threshold turns the price non-positive. *)
Theorem find_stock_price_positive (gauss : nat -> R) (S_0 r sigma T : R)
        (steps : nat) :
  0 <= T -> (1 <= steps)%nat -> 0 < S_0 ->
  let dt := T / INR steps in
  exists S_ t : list R,
    find_stock_price gauss S_0 r sigma T steps = Ok (S_, t)
    /\ (Forall (Rlt 0) S_ <->
        forall k, (k < steps)%nat ->
          0 < 1 + r * dt + sigma * sqrt dt * gauss k).
Proof.
  intros _ H HS dt. do 2 eexists.
  split; [now apply find_stock_price_ok|]. fold dt. split.
  - intros Hall k Hk. rewrite Forall_forall in Hall.
    assert (H0 : 0 < gbm gauss S_0 r sigma dt k).
    { apply Hall. apply in_map. apply in_seq. lia. }
    assert (H1 : 0 < gbm gauss S_0 r sigma dt (S k)).
    { apply Hall. apply in_map. apply in_seq. lia. }
    rewrite gbm_step in H1.
    destruct (Rlt_le_dec 0 (1 + r * dt + sigma * sqrt dt * gauss k))
      as [Hp|Hn]; [exact Hp | nra].
  - intros Hf. apply Forall_forall. intros x Hx. apply in_map_iff in Hx.
    destruct Hx as (k & <- & Hk). apply in_seq in Hk.
    assert (Hk' : (k <= steps)%nat) by lia. clear Hk.
    induction k as [|k IH]; [exact HS|].
    rewrite gbm_step. apply Rmult_lt_0_compat; [apply IH; lia | apply Hf; lia].
Qed.

Lemma find_stock_price_positive_witness :
  let gauss := fun i : nat => if Nat.even i then 1 else - 1 in
  let dt := 5 / INR 100 in
  exists S_ t : list R,
    find_stock_price gauss 100 (15 / 100) (5 / 100) 5 100 = Ok (S_, t)
    /\ (Forall (Rlt 0) S_ <->
        forall k, (k < 100)%nat ->
          0 < 1 + 15 / 100 * dt + 5 / 100 * sqrt dt * gauss k).
Proof.
  apply (find_stock_price_positive (fun i : nat => if Nat.even i then 1 else - 1)
                                   100 (15 / 100) (5 / 100) 5 100);
    [lra | lia | lra].
Defined.

(** ** Path-dependent payoffs *)

Lemma builtin_max_fold (rest : list R) (x : R) :
  let m := fold_left (fun m y => if Rgt_dec y m then y else m) rest x in
  (m = x \/ In m rest) /\ x <= m /\ forall y, In y rest -> y <= m.
Proof.
  revert x. induction rest as [|z rest IH]; intros x; cbn [fold_left].
  - split; [now left|]. split; [lra|]. intros y [].
  - destruct (Rgt_dec z x) as [Hgt|Hle].
    + destruct (IH z) as (Hin & Hge & Hall). cbv zeta in *.
      split; [right; destruct Hin as [->|Hin]; [now left | now right]|].
      split; [lra|]. intros y [<-|Hy]; [exact Hge | now apply Hall].
    + destruct (IH x) as (Hin & Hge & Hall). cbv zeta in *.
      split; [destruct Hin as [->|Hin]; [now left | right; now right]|].
      split; [exact Hge|]. intros y [<-|Hy]; [lra | now apply Hall].
Qed.

Lemma builtin_max_spec (S_ : list R) :
  S_ <> [] ->
  exists m, builtin_max S_ = Returns m
            /\ In m S_ /\ forall y, In y S_ -> y <= m.
Proof.
  intros Hne. destruct S_ as [|x rest]; [contradiction|].
  destruct (builtin_max_fold rest x) as (Hin & Hge & Hall). cbv zeta in *.
  eexists. split; [reflexivity|]. split.
  - destruct Hin as [->|Hin]; [now left | now right].
  - intros y [<-|Hy]; [exact Hge | now apply Hall].
Qed.

Lemma asian_call_payoff_nonempty (S_ : list R) (E : R) :
  S_ <> [] -> asian_call_payoff S_ E = Fin (Rmax (mean S_ - E) 0).
Proof.
  intros Hne. destruct S_ as [|x rest]; [contradiction|].
  unfold asian_call_payoff, find_average, np_mean, np_gt, np_sub, mean.
  set (a := fold_right Rplus 0 (x :: rest) / INR (List.length (x :: rest))).
  unfold Rmax. destruct (Rgt_dec a E), (Rle_dec (a - E) 0);
    try reflexivity; lra.
Qed.

Lemma lookback_call_payoff_nonempty (S_ : list R) (E : R) :
  S_ <> [] ->
  exists m, In m S_ /\ (forall y, In y S_ -> y <= m)
            /\ lookback_call_payoff S_ E = Returns (Rmax (m - E) 0).
Proof.
  intros Hne.
  destruct (builtin_max_spec S_ Hne) as (m & Hm & Hin & Hall).
  exists m. split; [exact Hin|]. split; [exact Hall|].
  unfold lookback_call_payoff. rewrite Hm. unfold Rmax.
  destruct (Rgt_dec m E), (Rle_dec (m - E) 0); try reflexivity; lra.
Qed.

(** X25: [asian_call_payoff] is [max(mean(S) - E, 0)] and
    [lookback_call_payoff] is [max(max(S) - E, 0)] on a non-empty path; on
    the empty path the first returns [0] (the mean is [nan] and the
    comparison fails) and the second raises [ValueError]. *)
Theorem path_payoffs (S_ : list R) (E : R) :
  asian_call_payoff [] E = Fin 0
  /\ lookback_call_payoff [] E = RaisesValueError
  /\ (S_ <> [] ->
        asian_call_payoff S_ E = Fin (Rmax (mean S_ - E) 0)
        /\ exists m, In m S_ /\ (forall y, In y S_ -> y <= m)
                     /\ lookback_call_payoff S_ E = Returns (Rmax (m - E) 0)).
Proof.
  split; [reflexivity|]. split; [reflexivity|]. intros Hne. split.
  - now apply asian_call_payoff_nonempty.
  - now apply lookback_call_payoff_nonempty.
Qed.

Lemma path_payoffs_witness :
  asian_call_payoff [] 130 = Fin 0
  /\ lookback_call_payoff [] 130 = RaisesValueError
  /\ asian_call_payoff [100; 140; 180] 130
     = Fin (Rmax (mean [100; 140; 180] - 130) 0)
  /\ exists m, In m [100; 140; 180]
               /\ (forall y, In y [100; 140; 180] -> y <= m)
               /\ lookback_call_payoff [100; 140; 180] 130
                  = Returns (Rmax (m - 130) 0).
Proof.
  destruct (path_payoffs [100; 140; 180] 130) as (H1 & H2 & H3).
  split; [exact H1|]. split; [exact H2|]. apply H3. discriminate.
Defined.

Lemma sum_le_length_times (S_ : list R) (m : R) :
  (forall y, In y S_ -> y <= m) ->
  fold_right Rplus 0 S_ <= INR (List.length S_) * m.
Proof.
  intros H. induction S_ as [|x rest IH].
  - simpl. lra.
  - cbn [fold_right List.length]. rewrite S_INR.
    assert (x <= m) by (apply H; now left).
    assert (fold_right Rplus 0 rest <= INR (List.length rest) * m)
      by (apply IH; intros; apply H; now right).
    lra.
Qed.

Lemma mean_le_bound (S_ : list R) (m : R) :
  S_ <> [] -> (forall y, In y S_ -> y <= m) -> mean S_ <= m.
Proof.
  intros Hne H. unfold mean.
  assert (Hn : 0 < INR (List.length S_)).
  { apply lt_0_INR. destruct S_; [contradiction | simpl; lia]. }
  pose proof (sum_le_length_times S_ m H) as Hs.
  apply Rmult_le_reg_r with (INR (List.length S_)); [exact Hn|].
  unfold Rdiv. rewrite Rmult_assoc, Rinv_l by lra. lra.
Qed.

(** X26: on a non-empty path the lookback call pays at least what the
    Asian call pays, which is at least [0], and at least the plain call
    payoff [max(x - E, 0)] at every price [x] of the path. *)
Theorem lookback_dominates (S_ : list R) (E : R) :
  S_ <> [] ->
  exists asian lookback : R,
    asian_call_payoff S_ E = Fin asian
    /\ lookback_call_payoff S_ E = Returns lookback
    /\ 0 <= asian <= lookback
    /\ forall x, In x S_ -> Rmax (x - E) 0 <= lookback.
Proof.
  intros Hne.
  pose proof (asian_call_payoff_nonempty S_ E Hne) as Ha.
  destruct (lookback_call_payoff_nonempty S_ E Hne) as (m & Hin & Hall & Hl).
  do 2 eexists. split; [exact Ha|]. split; [exact Hl|].
  pose proof (mean_le_bound S_ m Hne Hall) as Hmean.
  split; [split|].
  - apply Rmax_r.
  - apply Rmax_lub; [|apply Rmax_r].
    eapply Rle_trans; [|apply Rmax_l]. lra.
  - intros x Hx. specialize (Hall x Hx).
    apply Rmax_lub; [|apply Rmax_r].
    eapply Rle_trans; [|apply Rmax_l]. lra.
Qed.

Lemma lookback_dominates_witness :
  exists asian lookback : R,
    asian_call_payoff [100; 140; 180] 130 = Fin asian
    /\ lookback_call_payoff [100; 140; 180] 130 = Returns lookback
    /\ 0 <= asian <= lookback
    /\ forall x, In x [100; 140; 180] -> Rmax (x - 130) 0 <= lookback.
Proof.
  apply (lookback_dominates [100; 140; 180] 130). discriminate.
Defined.

Lemma sum_repeat (c : R) (n : nat) :
  fold_right Rplus 0 (repeat c n) = INR n * c.
Proof.
  induction n as [|n IH]; [simpl; ring|].
  cbn [repeat fold_right]. rewrite IH, S_INR. ring.
Qed.

(** X27: the script prices at [T = 0.0] as well.  There, for
    [steps >= 1], the simulated path is flat and both payoffs are the
    plain call payoff at [S_0], [max(S_0 - E, 0)], whatever is drawn. *)
Theorem payoffs_at_zero_horizon (gauss : nat -> R) (S_0 r sigma E : R)
        (steps : nat) :
  (1 <= steps)%nat ->
  exists S_ t : list R,
    find_stock_price gauss S_0 r sigma 0 steps = Ok (S_, t)
    /\ asian_call_payoff S_ E = Fin (Rmax (S_0 - E) 0)
    /\ lookback_call_payoff S_ E = Returns (Rmax (S_0 - E) 0).
Proof.
  intros H. do 2 eexists.
  split; [now apply find_stock_price_flat|].
  assert (Hne : repeat S_0 (steps + 1) <> []).
  { replace (steps + 1)%nat with (S steps) by lia. discriminate. }
  pose proof (asian_call_payoff_nonempty (repeat S_0 (steps + 1)) E Hne) as Ha.
  destruct (lookback_call_payoff_nonempty (repeat S_0 (steps + 1)) E Hne)
    as (m & Hin & _ & Hl).
  apply repeat_spec in Hin. subst m. split; [|exact Hl].
  rewrite Ha. do 2 f_equal. unfold mean.
  rewrite sum_repeat, repeat_length.
  assert (INR (steps + 1) <> 0) by (apply not_0_INR; lia).
  field. assumption.
Qed.

Lemma payoffs_at_zero_horizon_witness :
  exists S_ t : list R,
    find_stock_price (fun _ => 1) 100 (1 / 10) (1 / 10) 0 25 = Ok (S_, t)
    /\ asian_call_payoff S_ 130 = Fin (Rmax (100 - 130) 0)
    /\ lookback_call_payoff S_ 130 = Returns (Rmax (100 - 130) 0).
Proof.
  apply (payoffs_at_zero_horizon (fun _ => 1) 100 (1 / 10) (1 / 10) 130 25).
  lia.
Defined.

(** ** The closed forms of [BlackScholes.py] *)

(** X28: for [S > 0], [E > 0], [sigma > 0], [t > 0] and any distribution
    function that is symmetric about [0] (as the normal one is),
    [european_call] and [european_put] satisfy put-call parity exactly:
    [C - P = S - E*exp(-r*t)]. *)
Theorem closed_form_put_call_parity (norm_cdf : R -> R) (S_ t r sigma E : R) :
  (forall x, norm_cdf (- x) = 1 - norm_cdf x) ->
  0 < S_ -> 0 < E -> 0 < sigma -> 0 < t ->
  european_call norm_cdf S_ t r sigma E - european_put norm_cdf S_ t r sigma E
  = S_ - E * exp (- r * t).
Proof.
  intros Hsym _ _ _ _. unfold european_call, european_put. cbv zeta.
  rewrite !Hsym. ring.
Qed.

Lemma closed_form_put_call_parity_witness :
  let logistic := fun x => / (1 + exp (- x)) in
  european_call logistic 100 1 (5 / 100) (1 / 10) 120
  - european_put logistic 100 1 (5 / 100) (1 / 10) 120
  = 100 - 120 * exp (- (5 / 100) * 1).
Proof.
  apply (closed_form_put_call_parity (fun x => / (1 + exp (- x)))
                                     100 1 (5 / 100) (1 / 10) 120);
    try lra.
  intros x. rewrite Ropp_involutive.
  pose proof (exp_pos x) as Hx. rewrite exp_Ropp. field. lra.
Defined.
